(** * Route reconciliation in expo-router: [build/useScreens.js]

    A shallow embedding of [getSortedChildren], [createGetIdForRoute],
    [getQualifiedRouteComponent] and the [options] callback built by
    [routeToScreen], followed by the properties of the specification
    that concern them. *)

From Stdlib Require Import ZArith Permutation.
From stdpp Require Import base option list strings pretty gmap fin_maps.

Open Scope string_scope.
Open Scope list_scope.

(** ** JavaScript values *)

(** Stand-in for the argument React Navigation hands to an [options]
    callback ([{ route, navigation }]); the code under study only passes it
    on. *)
Record HostArgs := mkHostArgs { hostRouteKey : string; hostNavigator : nat }.

(** The values that flow through the untyped parts of the module: order
    entry fields, module exports and navigation options. *)
#[warnings="-register-all"]
Inductive jsval :=
  | JUndefined
  | JNull
  | JBool (b : bool)
  | JNum (z : Z)
  | JStr (s : string)
  | JObj (fields : gmap string jsval)
  | JFun (f : HostArgs → jsval).

(** ToBoolean. *)
Definition truthy (v : jsval) : bool :=
  match v with
  | JUndefined | JNull => false
  | JBool b => b
  | JNum z => negb (z =? 0)%Z
  | JStr s => negb (String.eqb s "")
  | JObj _ | JFun _ => true
  end.

(** [typeof v === 'string'] *)
Definition typeof_string (v : jsval) : bool :=
  match v with JStr _ => true | _ => false end.

(** [typeof v === 'object'] (which [null] satisfies). *)
Definition typeof_object (v : jsval) : bool :=
  match v with JNull | JObj _ => true | _ => false end.

(** An object literal given by its properties. *)
Definition obj (l : list (string * jsval)) : gmap string jsval := list_to_map l.

(** Object spread [{...v}]: own enumerable properties of an object, the
    indexed characters of a string, nothing for the other values. *)
Definition spread (v : jsval) : gmap string jsval :=
  match v with
  | JObj fields => fields
  | JStr s =>
      list_to_map
        (imap (λ i c, (pretty i, JStr (String c EmptyString)))
              (String.list_ascii_of_string s))
  | _ => ∅
  end.

(** ** The route tree *)

Record DynamicSegment := mkDynamic { name : string; deep : bool }.

Record ModuleExports := mkModule {
  default : jsval;
  ErrorBoundary : jsval;
  getNavOptions : jsval
}.

(** [route.loadRoute()] yields the module or a promise of it. *)
Inductive LoadResult :=
  | Resolved (m : ModuleExports)
  | Promised (m : ModuleExports).

(** A RouteNode.  Objects are compared by reference in the source
    ([WeakMap] keys); [ref] is that reference.  [children] is [None] when the
    property is [undefined]. *)
#[warnings="-register-all"]
Inductive RouteNode := mkRouteNode {
  ref : positive;
  route : string;
  contextKey : string;
  children : option (list RouteNode);
  dynamic : option (list DynamicSegment);
  initialRouteName : option string;
  generated : bool;
  loadRoute : LoadResult
}.

(** ** [Array.prototype.sort]

    The sort is stable and takes a comparator that answers with a number;
    a negative answer puts the first argument first.  It is embedded as the
    stable insertion sort.  The language defines the resulting order for a
    consistent comparator only; for such a comparator ([consistentOn]) the
    order is the one of this definition ([inOrder_stable_unique]), for others
    it depends on the engine. *)
Section Sort.
Context {A : Type} (compareFn : A → A → Z).

Fixpoint sort_insert (x : A) (l : list A) : list A :=
  match l with
  | [] => [x]
  | y :: l' =>
      if (compareFn x y <=? 0)%Z then x :: y :: l'
      else y :: sort_insert x l'
  end.

Definition sort (l : list A) : list A := foldr sort_insert [] l.
End Sort.

(** [Array.prototype.findIndex], with [None] for [-1]. *)
Fixpoint findIndex {A} (p : A → bool) (l : list A) : option nat :=
  match l with
  | [] => None
  | x :: l' => if p x then Some 0 else S <$> findIndex p l'
  end.

(** [arr.splice(i, 1)]: the array without its element at index [i]. *)
Definition splice1 {A} (i : nat) (l : list A) : list A := delete i l.

(** ** The order reconciler *)

(** An item of the author-declared ordering. *)
Record OrderEntry := mkEntry {
  entry_name : string;
  redirect : jsval;
  initialParams : jsval;
  listeners : jsval;
  options : jsval;
  getId : jsval
}.

(** One element of the reconciled sequence: [{ route, props }]. *)
Module Child.
Record t := mk { route : RouteNode; props : gmap string jsval }.
End Child.

(** [console.warn] calls. *)
Inductive Warning :=
  | TooManyScreens (name : string)
  | NoRouteNamed (name : string) (nested : list string).

(** The callback of [order.map] reads and updates the working copy
    [entries], writes to the console and may throw. *)
Record Frame := mkFrame { entries : list RouteNode; console : list Warning }.

Inductive Outcome (A : Type) :=
  | Normal (a : A) (fr : Frame)
  | Abrupt (err : string) (fr : Frame).
Arguments Normal {A} a fr.
Arguments Abrupt {A} err fr.

Definition M (A : Type) : Type := Frame → Outcome A.

Global Instance M_ret : MRet M := λ A a fr, Normal a fr.

Global Instance M_bind : MBind M := λ A B k m fr,
  match m fr with
  | Normal a fr' => k a fr'
  | Abrupt err fr' => Abrupt err fr'
  end.

Definition throw {A} (err : string) : M A := λ fr, Abrupt err fr.

Definition warn (w : Warning) : M unit :=
  λ fr, Normal () (mkFrame (entries fr) (console fr ++ [w])).

Definition getEntries : M (list RouteNode) := λ fr, Normal (entries fr) fr.

Definition setEntries (es : list RouteNode) : M unit :=
  λ fr, Normal () (mkFrame es (console fr)).

(** [arr.map(f)] for an effectful [f]: left to right, stopping at a throw. *)
Fixpoint mapM {A B} (f : A → M B) (l : list A) : M (list B) :=
  match l with
  | [] => mret []
  | x :: l' => y ← f x; ys ← mapM f l'; mret (y :: ys)
  end.

Definition redirectError : string :=
  "Redirecting to a specific route is not supported yet.".

(** The arrow function given to [order.map] (lines 22-48); [None] is its
    [null]. *)
Definition orderCallback (children : list RouteNode) (e : OrderEntry)
  : M (option Child.t) :=
  es ← getEntries;
  if bool_decide (length es = 0) then
    warn (TooManyScreens (entry_name e));; mret None
  else
    match findIndex (λ child, String.eqb (route child) (entry_name e)) es with
    | None =>
        warn (NoRouteNamed (entry_name e) (map route children));; mret None
    | Some matchIndex =>
        match es !! matchIndex with
        | None => mret None (* not reached: findIndex answers a valid index *)
        | Some match_ =>
            setEntries (splice1 matchIndex es);;
            if truthy (redirect e) then
              if typeof_string (redirect e) then throw redirectError
              else mret None
            else
              mret (Some (Child.mk match_
                     (obj [("initialParams", initialParams e);
                           ("listeners", listeners e);
                           ("options", options e);
                           ("getId", getId e)])))
        end
    end.

(** What a call leaves behind: its completion, the contents of the caller's
    [children] array afterwards, and the warnings written. *)
Inductive Completion (A : Type) :=
  | Return (a : A)
  | Throw (err : string).
Arguments Return {A} a.
Arguments Throw {A} err.

Record CallResult := mkCall {
  completion : Completion (list Child.t);
  children_after : list RouteNode;
  warnings : list Warning
}.

Section Reconciler.
(** [sortRoutesWithInitial] lives in [./Route], outside this module; the
    reconciler is studied for an arbitrary comparator factory. *)
Variable sortRoutesWithInitial : option string → RouteNode → RouteNode → Z.

Definition withEmptyProps (r : RouteNode) : Child.t := Child.mk r ∅.

Definition getSortedChildren (children : list RouteNode)
    (order : option (list OrderEntry)) (initialRouteName : option string)
  : CallResult :=
  match order with
  | None | Some [] =>
      (* [children.sort] sorts the caller's array in place *)
      let sorted := sort (sortRoutesWithInitial initialRouteName) children in
      mkCall (Return (map withEmptyProps sorted)) sorted []
  | Some order =>
      match mapM (orderCallback children) order (mkFrame children []) with
      | Abrupt err fr => mkCall (Throw err) children (console fr)
      | Normal mapped fr =>
          let ordered : list Child.t := omap id mapped in
          let rest := sort (sortRoutesWithInitial initialRouteName) (entries fr) in
          mkCall (Return (ordered ++ map withEmptyProps rest))
                 children (console fr)
      end
  end.
End Reconciler.

(** ** The identifier generator *)

(** A runtime parameter is a string or an array of strings. *)
Inductive ParamValue :=
  | PStr (s : string)
  | PArr (l : list string).

(** The parameter bag: its own properties in enumeration order. *)
Definition Params : Type := list (string * ParamValue).

(** The argument of the generated function, [{ params }]; [None] stands
    for [undefined] at both levels. *)
Record IdCtx := mkIdCtx { params : option Params }.

Definition Object_keys (p : Params) : list string := p.*1.

(** [params[key]], among the bag's own properties.  A plain object also
    answers for the members of [Object.prototype]; that is left out, so the
    definition is the code's read for every key the bag has and for every key
    that is not the name of such a member ([Object_prototype_names]). *)
Fixpoint param_get (p : Params) (key : string) : option ParamValue :=
  match p with
  | [] => None
  | (k, v) :: p' => if String.eqb k key then Some v else param_get p' key
  end.

(** [new Set(keys)]: insertion order, one occurrence of each key. *)
Fixpoint Set_new (keys : list string) : list string :=
  match keys with
  | [] => []
  | k :: keys' => k :: filter (λ x, x ≠ k) (Set_new keys')
  end.

Definition Set_delete (k : string) (s : list string) : list string :=
  filter (λ x, x ≠ k) s.

(** [Map.prototype.set] on an insertion-ordered map: an existing key keeps
    its place and takes the new value, a new key goes last. *)
Fixpoint Map_set {V} (k : string) (v : V) (m : list (string * V))
  : list (string * V) :=
  match m with
  | [] => [(k, v)]
  | (k', v') :: m' =>
      if String.eqb k' k then (k, v) :: m' else (k', v') :: Map_set k v m'
  end.

Definition Map_values {V} (m : list (string * V)) : list V := m.*2.

(** [Array.prototype.join] on strings. *)
Definition join (sep : string) (l : list string) : string := String.concat sep l.

(** ToString of a parameter, as a template literal does it. *)
Definition param_toString (v : option ParamValue) : string :=
  match v with
  | None => "undefined"
  | Some (PStr s) => s
  | Some (PArr l) => join "," l
  end.

Definition isArray (v : option ParamValue) : bool :=
  match v with Some (PArr _) => true | _ => false end.

Definition param_truthy (v : option ParamValue) : bool :=
  match v with
  | None => false
  | Some (PStr s) => negb (String.eqb s "")
  | Some (PArr _) => true
  end.

(** The string pushed on [segments] for one dynamic segment (lines
    151-165). *)
Definition segmentId (params : Params) (dynamic : DynamicSegment) : string :=
  let value := param_get params (name dynamic) in
  match value with
  | Some (PArr (x :: l)) => join "/" (x :: l)
  | _ =>
      if param_truthy value && negb (isArray value) then param_toString value
      else if deep dynamic then "[..." +:+ name dynamic +:+ "]"
      else "[" +:+ name dynamic +:+ "]"
  end.

(** The [include] map built when the generator is created. *)
Definition includeOf (route : RouteNode) : list (string * DynamicSegment) :=
  match dynamic route with
  | None => []
  | Some segs => foldl (λ m segment, Map_set (name segment) segment m) [] segs
  end.

Definition reservedKey (key : string) : bool :=
  String.eqb key "screen" || String.eqb key "params".

Definition createGetIdForRoute (route : RouteNode) (ctx : option IdCtx) : string :=
  let include := includeOf route in
  let params := from_option id [] (ctx ≫= params) in
  let '(segments, unprocessedParams) :=
    foldl (λ '(segments, unprocessed) dynamic,
             (segments ++ [segmentId params dynamic],
              Set_delete (name dynamic) unprocessed))
          ([], Set_new (Object_keys params)) (Map_values include) in
  let id := join "/" segments in
  let searchParams :=
    match children route with
    | Some [] =>
        (λ key, key +:+ "=" +:+ param_toString (param_get params key))
          <$> filter (λ key, reservedKey key = false) unprocessedParams
    | _ => []
    end in
  if bool_decide (searchParams = []) then id
  else (if String.eqb id "" then contextKey route else id)
         +:+ "?" +:+ join "&" searchParams.

(** ** The component adapter and its store *)

(** What [fromImport] makes of a module. *)
Inductive Component :=
  | UserComponent (v : jsval)
  | EmptyRoute
  | TryCatch (catch_ : jsval) (inner : Component).

(** What the synchronous path reads from [route.loadRoute()]: a promise has
    none of the module's properties. *)
Definition exportsOf (res : LoadResult) : ModuleExports :=
  match res with
  | Resolved m => m
  | Promised _ => mkModule JUndefined JUndefined JUndefined
  end.

Definition isEmptyObject (v : jsval) : bool :=
  match v with JObj fields => bool_decide (size fields = 0) | _ => false end.

Inductive Loaded :=
  | Now (c : Component)
  | Later (c : Component).

Inductive ScreenComponent :=
  | LazyScreen (load : Loaded)
  | SyncScreen (c : Component).

(** The [forwardRef] component the adapter returns; [qid] is the identity
    of that freshly created object. *)
Record QualifiedRoute := mkQualified {
  qid : positive;
  displayName : string;
  node : RouteNode;
  screen : ScreenComponent
}.

(** The module-level [qualifiedStore], keyed by RouteNode reference, and
    the next unused object identity. *)
Record Store := mkStore {
  qualifiedStore : gmap positive QualifiedRoute;
  nextObject : positive
}.

Section Adapter.
(** [./import-mode] and [process.env.NODE_ENV] *)
Variables (import_mode NODE_ENV : string).

Definition fromImport (m : ModuleExports) : Component :=
  if truthy (ErrorBoundary m) then
    TryCatch (ErrorBoundary m)
      (if truthy (default m) then UserComponent (default m) else EmptyRoute)
  else if negb (String.eqb NODE_ENV "production")
          && typeof_object (default m) && truthy (default m)
          && isEmptyObject (default m) then EmptyRoute
  else UserComponent (default m).

Definition fromLoadedRoute (res : LoadResult) : Loaded :=
  match res with
  | Resolved m => Now (fromImport m)
  | Promised m => Later (fromImport m)
  end.

Definition getQualifiedRouteComponent (value : RouteNode) (st : Store)
  : QualifiedRoute * Store :=
  match qualifiedStore st !! ref value with
  | Some cached => (cached, st)
  | None =>
      let ScreenComponent :=
        if String.eqb import_mode "lazy"
        then LazyScreen (fromLoadedRoute (loadRoute value))
        else SyncScreen (fromImport (exportsOf (loadRoute value))) in
      let QualifiedRoute :=
        mkQualified (nextObject st) ("Route(" +:+ route value +:+ ")")
                    value ScreenComponent in
      (QualifiedRoute,
       mkStore (<[ref value := QualifiedRoute]> (qualifiedStore st))
               (Pos.succ (nextObject st)))
  end.

(** ** The screen descriptor builder *)

Definition tabBarButton_hidden : jsval := JFun (λ _, JNull).

Definition drawerItemStyle_hidden : jsval :=
  JObj (obj [("height", JNum 0); ("display", JStr "none")]).

(** [typeof v === 'function' ? v(args) : v] *)
Definition callIfFunction (v : jsval) (args : HostArgs) : jsval :=
  match v with JFun f => f args | _ => v end.

(** The [options] callback of the screen (lines 198-214). *)
Definition screenOptions (route : RouteNode) (options : jsval)
    (args : HostArgs) : gmap string jsval :=
  let staticOptions :=
    if generated route then getNavOptions (exportsOf (loadRoute route))
    else JNull in
  let staticResult := callIfFunction staticOptions args in
  let dynamicResult := callIfFunction options args in
  let output := spread dynamicResult ∪ spread staticResult in
  if generated route then
    <["drawerItemStyle" := drawerItemStyle_hidden]>
      (<["tabBarButton" := tabBarButton_hidden]> output)
  else output.

Inductive GetId :=
  | GeneratedGetId (f : option IdCtx → string)
  | GivenGetId (v : jsval).

(** The props of the [<Screen>] element. *)
Record Screen := mkScreen {
  screen_getId : GetId;
  screen_name : string;
  screen_key : string;
  screen_options : HostArgs → gmap string jsval;
  screen_getComponent : Store → QualifiedRoute * Store;
  screen_rest : gmap string jsval
}.

(** The parameter is [route] in the source; it is [routeNode] here
    because the body reads its [route] property. *)
Definition routeToScreen (routeNode : RouteNode)
    (props : option (gmap string jsval)) : Screen :=
  let all := from_option id ∅ props in
  let options := from_option id JUndefined (all !! "options") in
  let props := delete "options" all in
  mkScreen
    (match props !! "getId" with
     | Some v => GivenGetId v
     | None => GeneratedGetId (createGetIdForRoute routeNode)
     end)
    (route routeNode) (route routeNode)
    (screenOptions routeNode options)
    (getQualifiedRouteComponent routeNode)
    (delete "getId" (delete "name" (delete "key"
       (delete "getComponent" props)))).
End Adapter.

(** Modelled from the spec: [sortRoutesWithInitial] of [./Route], which
    the reconciler imports and which is not among the sources.  Section 4.1:
    "the node whose name equals initialRouteName sorts strictly first;
    otherwise falls back to a stable secondary ordering (e.g., lexical or
    declaration order)".  Declaration order is taken: the comparator answers
    0 for two nodes neither of which is the initial one. *)
Definition sortRoutesWithInitial_spec (initialRouteName : option string)
    (a b : RouteNode) : Z :=
  match initialRouteName with
  | Some initial =>
      if String.eqb (route a) initial then (-1)%Z
      else if String.eqb (route b) initial then 1%Z
      else 0%Z
  | None => 0%Z
  end.

(** ** A pure view of the reconciler *)

(** The test [child.route === name] of the callback. *)
Definition named (e : OrderEntry) (child : RouteNode) : bool :=
  String.eqb (route child) (entry_name e).

Definition entryProps (e : OrderEntry) : gmap string jsval :=
  obj [("initialParams", initialParams e); ("listeners", listeners e);
       ("options", options e); ("getId", getId e)].

Definition stringRedirect (e : OrderEntry) : bool :=
  truthy (redirect e) && typeof_string (redirect e).

Fixpoint dropFirst {A} (p : A → bool) (l : list A) : list A :=
  match l with
  | [] => []
  | x :: l' => if p x then l' else x :: dropFirst p l'
  end.

(** The emitted descriptors and the final working copy, or the error. *)
Fixpoint reconcile (order : list OrderEntry) (es : list RouteNode)
  : Completion (list Child.t * list RouteNode) :=
  match order with
  | [] => Return ([], es)
  | e :: order' =>
      match find (named e) es with
      | None => reconcile order' es
      | Some m =>
          if truthy (redirect e) then
            if typeof_string (redirect e) then Throw redirectError
            else reconcile order' (dropFirst (named e) es)
          else
            match reconcile order' (dropFirst (named e) es) with
            | Return (out, rest) => Return (Child.mk m (entryProps e) :: out, rest)
            | Throw err => Throw err
            end
      end
  end.

(** The working copy when the entries of [pre] have been processed. *)
Definition remainingAfter (pre : list OrderEntry) (es : list RouteNode)
  : list RouteNode :=
  foldl (λ es e, dropFirst (named e) es) es pre.

(** The nodes consumed by entries with a truthy redirect. *)
Fixpoint redirected (order : list OrderEntry) (es : list RouteNode)
  : list RouteNode :=
  match order with
  | [] => []
  | e :: order' =>
      match find (named e) es with
      | None => redirected order' es
      | Some m =>
          (if truthy (redirect e) then [m] else [])
            ++ redirected order' (dropFirst (named e) es)
      end
  end.

Definition orderList (order : option (list OrderEntry)) : list OrderEntry :=
  from_option id [] order.

Definition routesOf (out : list Child.t) : list RouteNode := Child.route <$> out.

(** The descriptors of the explicitly ordered entries, read off the
    original [children]: one per entry without a truthy redirect, for the
    first child the entry names. *)
Definition explicitOrder (children : list RouteNode) (order : list OrderEntry)
  : list Child.t :=
  omap (λ e, if truthy (redirect e) then None
             else (λ m, Child.mk m (entryProps e)) <$> find (named e) children)
       order.

(** ** Sample routes and entries *)

Definition emptyModule : ModuleExports := mkModule JUndefined JUndefined JUndefined.

Definition leafRoute (r : positive) (segment : string) : RouteNode :=
  mkRouteNode r segment ("./" +:+ segment +:+ ".js") (Some []) None None false
              (Resolved emptyModule).

Definition routeA : RouteNode := leafRoute 1 "A".
Definition routeB : RouteNode := leafRoute 2 "B".
Definition routeC : RouteNode := leafRoute 3 "C".

Definition entryFor (segment : string) (redirect : jsval) : OrderEntry :=
  mkEntry segment redirect JUndefined JUndefined JUndefined JUndefined.

(** ** The identifier generator: vocabulary of the properties *)

Definition paramsOf (ctx : option IdCtx) : Params :=
  from_option id [] (ctx ≫= params).

Definition dynamicOf (route : RouteNode) : list DynamicSegment :=
  from_option id [] (dynamic route).

(** The keys of the parameter bag that no dynamic segment consumes and that
    are not reserved for navigation. *)
Definition residualKeys (route : RouteNode) (ps : Params) : list string :=
  filter (λ key, (key ∉ name <$> dynamicOf route)
                 ∧ (key ≠ "screen") ∧ (key ≠ "params"))
         (Set_new (Object_keys ps)).

Definition serialized (ps : Params) (key : string) : string :=
  key +:+ "=" +:+ param_toString (param_get ps key).

Definition placeholder (d : DynamicSegment) : string :=
  if deep d then "[..." +:+ name d +:+ "]" else "[" +:+ name d +:+ "]".

(** The string of one dynamic segment as C4 words it: the parameter joined
    with [/] when it is a non-empty array, its value when it is present and
    not an array, [[...name]] when it is absent and the segment is deep,
    [[name]] otherwise. *)
Definition segmentId_asWritten (ps : Params) (d : DynamicSegment) : string :=
  match param_get ps (name d) with
  | Some (PArr (x :: l)) => join "/" (x :: l)
  | Some (PStr s) => s
  | None => if deep d then "[..." +:+ name d +:+ "]" else "[" +:+ name d +:+ "]"
  | Some (PArr []) => "[" +:+ name d +:+ "]"
  end.

(** The same with the two changes the code asks for: a string parameter is
    used when it is not empty, and every parameter that is not used gives
    the placeholder of the segment's kind. *)
Definition segmentText (ps : Params) (d : DynamicSegment) : string :=
  match param_get ps (name d) with
  | Some (PArr (x :: l)) => join "/" (x :: l)
  | Some (PStr (String c s)) => String c s
  | _ => placeholder d
  end.

Definition withParams (ps : Params) : option IdCtx := Some (mkIdCtx (Some ps)).

Definition postRoute : RouteNode :=
  mkRouteNode 4 "[post]" "./[post].js" (Some [])
              (Some [mkDynamic "post" false]) None false (Resolved emptyModule).

(** ** The adapter store: vocabulary of the properties *)

(** The store before any route was adapted. *)
Definition emptyStore : Store := mkStore ∅ 1.

(** Every cached component was created before the next free identity, and
    two routes never share a component. *)
Definition store_wf (st : Store) : Prop :=
  (∀ k c, qualifiedStore st !! k = Some c → (qid c < nextObject st)%positive)
  ∧ (∀ k1 k2 c1 c2,
       qualifiedStore st !! k1 = Some c1 → qualifiedStore st !! k2 = Some c2 →
       qid c1 = qid c2 → k1 = k2).

(** A second RouteNode object with the field values of [routeA]. *)
Definition routeA_twin : RouteNode :=
  mkRouteNode 7 (route routeA) (contextKey routeA) (children routeA)
              (dynamic routeA) (initialRouteName routeA) (generated routeA)
              (loadRoute routeA).

(** A generated route whose module declares navigation options, and
    override props that try to show it in the tab bar and the drawer. *)
Definition sitemapRoute : RouteNode :=
  mkRouteNode 5 "_sitemap" "./_sitemap.js" (Some []) None None true
    (Resolved (mkModule JUndefined JUndefined
       (JFun (λ _, JObj (obj [("title", JStr "Sitemap");
                               ("tabBarButton", JStr "module")]))))).

Definition showingProps : gmap string jsval :=
  obj [("options",
        JObj (obj [("tabBarButton", JStr "override");
                   ("drawerItemStyle", JObj (obj [("height", JNum 48)]))]))].

Definition someArgs : HostArgs := mkHostArgs "key-1" 0.

(** The [include] map after the segments [segs], starting from [acc]. *)
Definition includeFrom (acc : list (string * DynamicSegment))
    (segs : list DynamicSegment) : list (string * DynamicSegment) :=
  foldl (λ m segment, Map_set (name segment) segment m) acc segs.

(** Closes [x ∉ l] for a closed [x] that differs from the closed elements
    of [l]. *)
Ltac not_listed :=
  let H := fresh in
  intros H;
  repeat (apply elem_of_cons in H as [H|H]; [discriminate H|]);
  by apply elem_of_nil in H.

(** Closes [NoDup l] for a list of constructor-distinct values. *)
Ltac distinct_elements :=
  repeat (apply NoDup_cons_2;
          [ let H := fresh in
            intros H;
            repeat (apply elem_of_cons in H as [H|H]; [discriminate H|]);
            by apply elem_of_nil in H
          | ]);
  apply NoDup_nil_2.

(** ** The hook [useSortedScreens] *)

(** What rendering with the hook leaves behind: the screens or the error,
    the [children] array of the node afterwards ([None] when there is no
    node or no array), and the warnings written. *)
Record Rendered := mkRendered {
  rendered : Completion (list Screen);
  node_children_after : option (list RouteNode);
  rendered_warnings : list Warning
}.

Section Hook.
Variable sortRoutesWithInitial : option string → RouteNode → RouteNode → Z.
Variables (import_mode NODE_ENV : string).

(** [useRouteNode()] reads the node off the React context: it is the
    parameter [node] here.  [useMemo] returns the value of its callback. *)
Definition useSortedScreens (node : option RouteNode)
    (order : option (list OrderEntry)) : Rendered :=
  match node with
  | Some n =>
      match children n with
      | Some (c :: cs) =>
          let call :=
            getSortedChildren sortRoutesWithInitial (c :: cs) order
                              (initialRouteName n) in
          mkRendered
            (match completion call with
             | Return sorted =>
                 Return (map (λ value,
                                routeToScreen import_mode NODE_ENV
                                  (Child.route value) (Some (Child.props value)))
                             sorted)
             | Throw err => Throw err
             end)
            (Some (children_after call)) (warnings call)
      | _ => mkRendered (Return []) (children n) []
      end
  | None => mkRendered (Return []) None []
  end.
End Hook.

(** ** The diagnostics of the reconciler, as a function of its input *)

(** The warning of an entry that finds no node in the working copy [es]. *)
Definition warningFor (children : list RouteNode) (e : OrderEntry)
    (es : list RouteNode) : Warning :=
  if bool_decide (length es = 0) then TooManyScreens (entry_name e)
  else NoRouteNamed (entry_name e) (map route children).

(** The warnings written while the entries of [order] are processed on the
    working copy [es], up to the entry that throws if one does. *)
Fixpoint diagnostics (children : list RouteNode) (order : list OrderEntry)
    (es : list RouteNode) : list Warning :=
  match order with
  | [] => []
  | e :: order' =>
      match find (named e) es with
      | None => warningFor children e es :: diagnostics children order' es
      | Some _ =>
          if stringRedirect e then []
          else diagnostics children order' (dropFirst (named e) es)
      end
  end.

Definition frameOf {A} (o : Outcome A) : Frame :=
  match o with Normal _ fr => fr | Abrupt _ fr => fr end.

(** ** The adapter store over a run of calls *)

(** The store after adapting the routes of [calls] one after the other. *)
Definition adaptAll (import_mode NODE_ENV : string) (calls : list RouteNode)
    (st : Store) : Store :=
  foldl (λ st value,
           (getQualifiedRouteComponent import_mode NODE_ENV value st).2)
        st calls.

(** Every cached component wraps a node of the reference it is cached
    under and is named after that node's segment. *)
Definition store_coherent (st : Store) : Prop :=
  ∀ k c, qualifiedStore st !! k = Some c →
         ref (node c) = k
         ∧ displayName c = "Route(" +:+ route (node c) +:+ ")".

(** The parameter bag without the keys reserved for navigation. *)
Definition withoutReserved (ps : Params) : Params :=
  filter (λ kv, reservedKey kv.1 = false) ps.

(** A layout route with three children and [C] as initial route, and a
    route with a dynamic segment and a child. *)
Definition layoutRoute : RouteNode :=
  mkRouteNode 10 "(tabs)" "./(tabs)/_layout.js"
              (Some [routeA; routeB; routeC]) None (Some "C") false
              (Resolved emptyModule).

Definition userRoute : RouteNode :=
  mkRouteNode 11 "[user]" "./[user]/_layout.js" (Some [routeA])
              (Some [mkDynamic "user" false]) None false (Resolved emptyModule).

(** ** Vocabulary of the ordering properties *)

(** A comparator is consistent on the elements of [l], in the sense that
    [Array.prototype.sort] asks for so that the sort order is defined: of two
    elements one comes first in both directions of the comparison, and
    "not after" is transitive.  (The comparison of an element with itself is
    only asked not to be positive; no sort compares an element with
    itself.) *)
Definition consistentOn {A} (compareFn : A → A → Z) (l : list A) : Prop :=
  (∀ a b, a ∈ l → b ∈ l → (0 < compareFn a b)%Z → (compareFn b a < 0)%Z)
  ∧ (∀ a b, a ∈ l → b ∈ l → a ≠ b →
            (compareFn a b < 0)%Z → (0 < compareFn b a)%Z)
  ∧ (∀ a b c, a ∈ l → b ∈ l → c ∈ l →
              (compareFn a b ≤ 0)%Z → (compareFn b c ≤ 0)%Z →
              (compareFn a c ≤ 0)%Z).

(** [l'] is in comparator order: no element stands before one it comes
    after. *)
Definition inOrder {A} (compareFn : A → A → Z) (l' : list A) : Prop :=
  ∀ x y, [x; y] `sublist_of` l' → (compareFn x y ≤ 0)%Z.

(** [l'] is a stable rearrangement of [l]: two elements of [l] that stand
    in comparator order in [l] stand in the same order in [l']. *)
Definition stableFor {A} (compareFn : A → A → Z) (l l' : list A) : Prop :=
  ∀ x y, [x; y] `sublist_of` l → (compareFn x y ≤ 0)%Z →
         [x; y] `sublist_of` l'.

(** The children and the entries that bear a name. *)
Definition childrenNamed (segment : string) (children : list RouteNode)
  : list RouteNode :=
  filter (λ child, route child = segment) children.

Definition entriesNamed (segment : string) (order : list OrderEntry)
  : list OrderEntry :=
  filter (λ e, entry_name e = segment) order.

(** The child an entry stands for when the entries of [pre] stand before
    it: of the children of its name, the one after as many as [pre] has
    entries of that name. *)
Definition matchedChild (children : list RouteNode) (pre : list OrderEntry)
    (e : OrderEntry) : option RouteNode :=
  childrenNamed (entry_name e) children
    !! length (entriesNamed (entry_name e) pre).

(** The descriptors of the entries of [order], in entry order, when the
    entries of [pre] stand before them: one per entry without truthy redirect
    that has a child to stand for. *)
Fixpoint explicitFrom (children : list RouteNode) (pre order : list OrderEntry)
  : list Child.t :=
  match order with
  | [] => []
  | e :: order' =>
      match (if truthy (redirect e) then None
             else matchedChild children pre e) with
      | Some m => [Child.mk m (entryProps e)]
      | None => []
      end ++ explicitFrom children (pre ++ [e]) order'
  end.

Definition explicitEntries (children : list RouteNode)
    (order : list OrderEntry) : list Child.t :=
  explicitFrom children [] order.

(** Two children of one name, for an ordering that names both. *)
Definition routeA' : RouteNode := leafRoute 12 "A".

(** ** Vocabulary of the segment properties *)

(** The distinct strings of a list, each at its first place. *)
Fixpoint firstOccurrences (l : list string) : list string :=
  match l with
  | [] => []
  | x :: l' => x :: filter (λ y, y ≠ x) (firstOccurrences l')
  end.

(** The property names every plain object inherits from
    [Object.prototype].  The parameter bag is a plain object, and
    [params?.[name]] reads an inherited member where the bag has no property
    of that name; [param_get] reads the bag's own properties, which is what
    the code reads for every other name. *)
Definition Object_prototype_names : list string :=
  ["constructor"; "hasOwnProperty"; "isPrototypeOf"; "propertyIsEnumerable";
   "toLocaleString"; "toString"; "valueOf"; "__proto__";
   "__defineGetter__"; "__defineSetter__";
   "__lookupGetter__"; "__lookupSetter__"].

(** A route with two dynamic segments of one name between two others. *)
Definition repeatedRoute : RouteNode :=
  mkRouteNode 13 "[a]/[b]/[...a]/[c]" "./[a]/[b]/[...a]/[c].js" (Some [])
    (Some [mkDynamic "a" false; mkDynamic "b" false;
           mkDynamic "a" true; mkDynamic "c" false])
    None false (Resolved emptyModule).

(** ** Lists: sorting, searching, removing *)

Section ListFacts.
Context {A : Type}.
Implicit Types (p q : A → bool) (l : list A).

Lemma sort_insert_perm (cmp : A → A → Z) x l :
  sort_insert cmp x l ≡ₚ x :: l.
Proof.
  induction l as [|y l IH]; simpl; [done|].
  destruct (cmp x y <=? 0)%Z; [done|].
  rewrite IH. apply Permutation_swap.
Qed.

Lemma sort_perm (cmp : A → A → Z) l : sort cmp l ≡ₚ l.
Proof.
  induction l as [|x l IH]; simpl; [done|].
  rewrite sort_insert_perm. by rewrite IH.
Qed.

Lemma findIndex_find p l :
  findIndex p l = None ∧ find p l = None
  ∨ ∃ i m, findIndex p l = Some i ∧ l !! i = Some m ∧ find p l = Some m
           ∧ delete i l = dropFirst p l.
Proof.
  induction l as [|x l IH]; simpl; [by left|].
  destruct (p x) eqn:Hp.
  - right. by exists 0, x.
  - destruct IH as [[-> ->]|(i & m & -> & Hi & -> & Hd)]; [by left|].
    right. exists (S i), m. simpl. by rewrite Hd.
Qed.

Lemma find_Some_elem p l m : find p l = Some m → m ∈ l ∧ p m = true.
Proof.
  intros H. apply find_some in H as [H1 H2]. split; [|done].
  by apply list_elem_of_In.
Qed.

Lemma find_None_Forall p l : find p l = None → ∀ x, x ∈ l → p x = false.
Proof.
  intros H x Hx. apply list_elem_of_In in Hx.
  by apply (find_none _ _ H).
Qed.

Lemma dropFirst_perm p l m : find p l = Some m → l ≡ₚ m :: dropFirst p l.
Proof.
  induction l as [|x l IH]; simpl; [done|].
  destruct (p x); intros H.
  - by injection H as ->.
  - rewrite (IH H) at 1. apply Permutation_swap.
Qed.

Lemma dropFirst_None p l : find p l = None → dropFirst p l = l.
Proof.
  induction l as [|x l IH]; simpl; [done|].
  destruct (p x); [done|]. intros H. by rewrite IH.
Qed.

Lemma dropFirst_sublist p l : dropFirst p l `sublist_of` l.
Proof.
  induction l as [|x l IH]; simpl; [done|].
  destruct (p x); [by apply sublist_cons | by apply sublist_skip].
Qed.

(** Removing the first [q]-element does not change which element is the
    first [p]-element, when no element is both. *)
Lemma find_dropFirst p q l :
  (∀ x, p x = true → q x = false) → find p (dropFirst q l) = find p l.
Proof.
  intros Hpq. induction l as [|x l IH]; simpl; [done|].
  destruct (q x) eqn:Hq; simpl.
  - destruct (p x) eqn:Hp; [|done]. apply Hpq in Hp. congruence.
  - by rewrite IH.
Qed.
End ListFacts.

(** ** The callback and [order.map] against the pure view *)

Lemma orderCallback_no_match children e fr :
  find (named e) (entries fr) = None →
  ∃ w, orderCallback children e fr
       = Normal None (mkFrame (entries fr) (console fr ++ [w])).
Proof.
  intros Hfind. unfold orderCallback, mbind, M_bind, getEntries. simpl.
  case_bool_decide as Hlen.
  - by eexists.
  - destruct (findIndex_find (named e) (entries fr))
      as [[Hi _]|(i & m & _ & _ & Hm & _)]; [|congruence].
    unfold named in Hi. rewrite Hi. by eexists.
Qed.

Lemma orderCallback_match children e fr m :
  find (named e) (entries fr) = Some m →
  orderCallback children e fr =
    let fr' := mkFrame (dropFirst (named e) (entries fr)) (console fr) in
    if truthy (redirect e) then
      if typeof_string (redirect e) then Abrupt redirectError fr'
      else Normal None fr'
    else Normal (Some (Child.mk m (entryProps e))) fr'.
Proof.
  intros Hfind. unfold orderCallback, mbind, M_bind, getEntries. simpl.
  destruct (findIndex_find (named e) (entries fr))
    as [[_ Hn]|(i & m' & Hi & Hl & Hm & Hd)]; [congruence|].
  assert (m' = m) as -> by congruence.
  case_bool_decide as Hlen.
  { destruct (entries fr); [done | discriminate]. }
  unfold named in Hi. rewrite Hi, Hl. unfold splice1. rewrite Hd.
  unfold setEntries, throw, mret, M_ret, entryProps. simpl.
  by destruct (truthy (redirect e)), (typeof_string (redirect e)).
Qed.

Lemma mapM_reconcile children order fr :
  match mapM (orderCallback children) order fr with
  | Normal mapped fr' =>
      reconcile order (entries fr) = Return (omap id mapped, entries fr')
  | Abrupt err _ => reconcile order (entries fr) = Throw err
  end.
Proof.
  revert fr. induction order as [|e order IH]; intros fr; simpl; [done|].
  unfold mbind, M_bind.
  destruct (find (named e) (entries fr)) as [m|] eqn:Hfind.
  - rewrite (orderCallback_match _ _ _ _ Hfind). simpl.
    destruct (truthy (redirect e)); [destruct (typeof_string (redirect e))|];
      [done| |].
    + specialize (IH (mkFrame (dropFirst (named e) (entries fr)) (console fr))).
      simpl in IH.
      destruct (mapM _ order _) as [mapped fr'|err fr']; simpl; by rewrite IH.
    + specialize (IH (mkFrame (dropFirst (named e) (entries fr)) (console fr))).
      simpl in IH.
      destruct (mapM _ order _) as [mapped fr'|err fr']; simpl; by rewrite IH.
  - destruct (orderCallback_no_match children _ _ Hfind) as [w ->].
    specialize (IH (mkFrame (entries fr) (console fr ++ [w]))). simpl in IH.
    destruct (mapM _ order _) as [mapped fr'|err fr']; simpl; by rewrite IH.
Qed.

Section ReconcilerFacts.
Variable sortRoutesWithInitial : option string → RouteNode → RouteNode → Z.

Local Abbreviation getSorted := (getSortedChildren sortRoutesWithInitial).

(** The completion of a call, through the pure view. *)
Lemma getSortedChildren_completion children order initialRouteName :
  completion (getSorted children order initialRouteName) =
    match reconcile (orderList order) children with
    | Return (ordered, rest) =>
        Return (ordered ++ (withEmptyProps
                  <$> sort (sortRoutesWithInitial initialRouteName) rest))
    | Throw err => Throw err
    end.
Proof.
  destruct order as [[|e order]|]; [done| |done].
  unfold getSortedChildren, orderList. simpl from_option.
  pose proof (mapM_reconcile children (e :: order) (mkFrame children [])) as H.
  destruct (mapM _ _ _) as [mapped fr'|err fr']; simpl in H |- *;
    by rewrite H.
Qed.

(** Without an ordering the caller's array is the one that gets sorted. *)
Lemma getSortedChildren_unordered_frame children order initialRouteName :
orderList order = [] →
children_after (getSorted children order initialRouteName)
= sort (sortRoutesWithInitial initialRouteName) children.
Proof. by destruct order as [[|e order]|]. Qed.

(** With a non-empty ordering the caller's array is left as it was. *)
Lemma getSortedChildren_ordered_frame children e order initialRouteName :
  children_after (getSorted children (Some (e :: order)) initialRouteName)
  = children.
Proof.
  unfold getSortedChildren. by destruct (mapM _ _ _).
Qed.
End ReconcilerFacts.

(** ** Properties of the pure view *)

Lemma remainingAfter_cons e pre es :
  remainingAfter (e :: pre) es = remainingAfter pre (dropFirst (named e) es).
Proof. done. Qed.

Lemma reconcile_perm order es out rest :
  reconcile order es = Return (out, rest) →
  routesOf out ++ redirected order es ++ rest ≡ₚ es.
Proof.
  revert es out. induction order as [|e order IH]; intros es out; simpl.
  - by intros [= <- <-].
  - destruct (find (named e) es) as [m|] eqn:Hfind; [|by apply IH].
    pose proof (dropFirst_perm _ _ _ Hfind) as Hperm.
    destruct (truthy (redirect e)).
    + destruct (typeof_string (redirect e)); [done|].
      intros H%IH. etrans; [|symmetry; exact Hperm]. simpl.
      etrans; [symmetry; apply Permutation_middle|]. by apply perm_skip.
    + destruct (reconcile order _) as [[out' rest']|] eqn:Hrec; [|done].
      intros [= <- <-]. apply IH in Hrec.
      etrans; [|symmetry; exact Hperm]. simpl. by apply perm_skip.
Qed.

Lemma redirected_nil order es :
  Forall (λ e, truthy (redirect e) = false) order → redirected order es = [].
Proof.
  intros H. revert es. induction H as [|e order He _ IH]; intros es; simpl;
    [done|].
  destruct (find (named e) es); [|done]. by rewrite He, IH.
Qed.

Lemma reconcile_rest order es out rest :
  reconcile order es = Return (out, rest) → rest = remainingAfter order es.
Proof.
  revert es out. induction order as [|e order IH]; intros es out; simpl.
  - by intros [= _ <-].
  - unfold remainingAfter. simpl. fold (remainingAfter order).
    destruct (find (named e) es) as [m|] eqn:Hfind.
    + destruct (truthy (redirect e)).
      * destruct (typeof_string (redirect e)); [done | apply IH].
      * destruct (reconcile order _) as [[out' rest']|] eqn:Hrec; [|done].
        intros [= _ <-]. by eapply IH.
    + rewrite (dropFirst_None _ _ Hfind). apply IH.
Qed.

(** A reconciliation fails only with the redirect error, and only when an
    entry carries a non-empty string redirect. *)
Lemma reconcile_Throw order es err :
  reconcile order es = Throw err →
  err = redirectError ∧ ∃ e, e ∈ order ∧ stringRedirect e = true.
Proof.
  revert es. induction order as [|e order IH]; intros es; simpl; [done|].
  assert (∀ es', reconcile order es' = Throw err →
            err = redirectError ∧ ∃ e', e' ∈ e :: order ∧ stringRedirect e' = true)
    as IH'.
  { intros es' (-> & e' & He' & Hs)%IH. split; [done|].
    exists e'. split; [by right | done]. }
  destruct (find (named e) es) as [m|]; [|by apply IH'].
  unfold stringRedirect at 1.
  destruct (truthy (redirect e)) eqn:Ht.
  - destruct (typeof_string (redirect e)) eqn:Hs; [|by apply IH'].
    intros [= <-]. split; [done|]. exists e. split; [by left|].
    unfold stringRedirect. by rewrite Ht, Hs.
  - destruct (reconcile order _) as [[out' rest']|err'] eqn:Hrec; [done|].
    intros [= ->]. by eapply IH'.
Qed.

(** An entry with a non-empty string redirect that finds its node stops the
    reconciliation, whatever stands before or after it. *)
Lemma reconcile_string_redirect pre e post es m :
  find (named e) (remainingAfter pre es) = Some m →
  stringRedirect e = true →
  reconcile (pre ++ e :: post) es = Throw redirectError.
Proof.
  intros Hfind [Ht Hs]%andb_prop. revert es Hfind.
  induction pre as [|e' pre IH]; intros es Hfind; simpl in *.
  - by rewrite Hfind, Ht, Hs.
  - destruct (find (named e') es) as [m'|] eqn:Hfind'.
    + destruct (truthy (redirect e')).
      * destruct (typeof_string (redirect e')); [done | by apply IH].
      * by rewrite (IH _ Hfind).
    + apply IH. by rewrite (dropFirst_None _ _ Hfind') in Hfind.
Qed.

(** The node of a matched entry with a truthy redirect is among the
    consumed ones. *)
Lemma redirected_elem pre e post es m :
  find (named e) (remainingAfter pre es) = Some m →
  truthy (redirect e) = true →
  m ∈ redirected (pre ++ e :: post) es.
Proof.
  intros Hfind Ht. revert es Hfind.
  induction pre as [|e' pre IH]; intros es Hfind; simpl in *.
  - rewrite Hfind, Ht. by left.
  - destruct (find (named e') es) as [m'|] eqn:Hfind'.
    + apply elem_of_app. right. by apply IH.
    + apply IH. by rewrite (dropFirst_None _ _ Hfind') in Hfind.
Qed.

(** The descriptor of a matched entry without a truthy redirect is
    emitted. *)
Lemma reconcile_emits pre e post es m out rest :
  find (named e) (remainingAfter pre es) = Some m →
  truthy (redirect e) = false →
  reconcile (pre ++ e :: post) es = Return (out, rest) →
  Child.mk m (entryProps e) ∈ out.
Proof.
  intros Hfind Ht. revert es out Hfind.
  induction pre as [|e' pre IH]; intros es out Hfind; simpl in *.
  - rewrite Hfind, Ht.
    destruct (reconcile post _) as [[out' rest']|]; [|done].
    intros [= <- _]. by left.
  - destruct (find (named e') es) as [m'|] eqn:Hfind'.
    + destruct (truthy (redirect e')).
      * destruct (typeof_string (redirect e')); [done | by apply IH].
      * destruct (reconcile (pre ++ _) _) as [[out' rest']|] eqn:Hrec; [|done].
        intros [= <- <-]. right. by eapply IH.
    + apply IH. by rewrite (dropFirst_None _ _ Hfind') in Hfind.
Qed.

Lemma find_is_Some {A} (p : A → bool) l x :
  x ∈ l → p x = true → is_Some (find p l).
Proof.
  intros Hx Hp. destruct (find p l) eqn:Hfind; [by eexists|].
  pose proof (find_None_Forall _ _ Hfind x Hx). congruence.
Qed.

Lemma named_distinct e e' x :
  entry_name e ≠ entry_name e' → named e' x = true → named e x = false.
Proof.
  unfold named. intros Hne ->%String.eqb_eq. by apply String.eqb_neq.
Qed.

(** Entries with pairwise distinct names, each finding in the working copy
    the node it would find in [children]: every entry meets the first child
    it names, and the working copy loses exactly those. *)
Lemma reconcile_distinct children order es :
  NoDup (entry_name <$> order) →
  (∀ e, e ∈ order →
        is_Some (find (named e) children)
        ∧ find (named e) es = find (named e) children) →
  reconcile order es =
    if existsb stringRedirect order then Throw redirectError
    else Return (explicitOrder children order, remainingAfter order es).
Proof.
  revert es. induction order as [|e order IH]; intros es Hnd Hall; simpl;
    [done|].
  apply NoDup_cons in Hnd as [Hnotin Hnd].
  destruct (Hall e) as [[m Hm] He]; [by left|].
  rewrite He, Hm. unfold explicitOrder, stringRedirect at 1. simpl.
  fold (explicitOrder children order).
  assert (reconcile order (dropFirst (named e) es) =
            if existsb stringRedirect order then Throw redirectError
            else Return (explicitOrder children order,
                         remainingAfter order (dropFirst (named e) es))) as Hrec.
  { apply IH; [done|]. intros e' He'.
    destruct (Hall e') as [Hsome Heq]; [by right|]. split; [done|].
    rewrite <- Heq. apply find_dropFirst. intros x.
    apply named_distinct. intros Heqn. apply Hnotin.
    rewrite Heqn. by apply list_elem_of_fmap_2. }
  rewrite Hrec.
  by destruct (truthy (redirect e)), (typeof_string (redirect e)),
       (existsb stringRedirect order).
Qed.

Lemma explicitOrder_names children order :
  (∀ e, e ∈ order → is_Some (find (named e) children)) →
  (route ∘ Child.route) <$> explicitOrder children order
  = entry_name <$> filter (λ e, truthy (redirect e) = false) order.
Proof.
  induction order as [|e order IH]; intros Hall; [done|].
  unfold explicitOrder. simpl. rewrite filter_cons.
  assert ((route ∘ Child.route) <$> explicitOrder children order
          = entry_name <$> filter (λ e, truthy (redirect e) = false) order)
    as IH' by (apply IH; intros e' He'; apply Hall; by right).
  destruct (Hall e) as [m Hm]; [by left|]. rewrite Hm.
  destruct (truthy (redirect e)); simpl.
  - exact IH'.
  - f_equal; [|exact IH'].
    apply find_Some_elem in Hm as [_ Hn]. by apply String.eqb_eq in Hn.
Qed.

Lemma routesOf_output ordered rest :
  routesOf (ordered ++ (withEmptyProps <$> rest)) = routesOf ordered ++ rest.
Proof.
  unfold routesOf. rewrite fmap_app. f_equal.
  rewrite <- list_fmap_compose. apply list_fmap_id.
Qed.

(** ** The sort: order, stability, uniqueness *)

Section SortFacts.
Context {A : Type} (cmp : A → A → Z).
Implicit Types (l s : list A).

Lemma pair_sublist_cons (x y a : A) t :
  [x; y] `sublist_of` a :: t ↔ (x = a ∧ y ∈ t) ∨ [x; y] `sublist_of` t.
Proof.
  rewrite sublist_cons_r. split.
  - intros [H|(l' & [= -> <-] & H)]; [by right|].
    left. split; [done|]. by apply singleton_sublist_l.
  - intros [[-> H]|H]; [|by left].
    right. exists [y]. split; [done|]. by apply singleton_sublist_l.
Qed.

Lemma pair_sublist_elem (x y : A) l :
  [x; y] `sublist_of` l → x ∈ l ∧ y ∈ l.
Proof.
  intros H. split; eapply elem_of_sublist; [|exact H| |exact H].
  - by left.
  - right. by left.
Qed.

Lemma pair_either (x y : A) l :
  x ∈ l → y ∈ l → x ≠ y → [x; y] `sublist_of` l ∨ [y; x] `sublist_of` l.
Proof.
  induction l as [|a t IH]; [by intros ?%elem_of_nil|].
  intros [->|Hx]%elem_of_cons [->|Hy]%elem_of_cons Hne; try done.
  - left. apply pair_sublist_cons. by left.
  - right. apply pair_sublist_cons. by left.
  - destruct (IH Hx Hy Hne) as [H|H]; [left | right];
      apply pair_sublist_cons; by right.
Qed.

Lemma pair_not_both (x y : A) l :
  NoDup l → [x; y] `sublist_of` l → [y; x] `sublist_of` l → False.
Proof.
  induction 1 as [|a t Ha Hnd IH]; [by intros ?%sublist_nil_r|].
  intros [[-> Hy]|H1]%pair_sublist_cons [[-> Hx]|H2]%pair_sublist_cons.
  - done.
  - by apply pair_sublist_elem in H2 as [_ ?].
  - by apply pair_sublist_elem in H1 as [_ ?].
  - by apply IH.
Qed.

Lemma sort_insert_sublist a s : s `sublist_of` sort_insert cmp a s.
Proof.
  induction s as [|b s IH]; simpl; [apply sublist_nil_l|].
  destruct (cmp a b <=? 0)%Z; [by apply sublist_cons | by apply sublist_skip].
Qed.

Lemma sort_insert_elem a s x : x ∈ sort_insert cmp a s ↔ x = a ∨ x ∈ s.
Proof. by rewrite (sort_insert_perm cmp a s), elem_of_cons. Qed.

Lemma sort_elem l x : x ∈ sort cmp l ↔ x ∈ l.
Proof. by rewrite (sort_perm cmp l). Qed.

Lemma sort_cons a l : sort cmp (a :: l) = sort_insert cmp a (sort cmp l).
Proof. done. Qed.

Lemma sort_insert_inOrder l a s :
  consistentOn cmp l → a ∈ l → (∀ x, x ∈ s → x ∈ l) →
  inOrder cmp s → inOrder cmp (sort_insert cmp a s).
Proof.
  intros (Hanti & _ & Htrans) Ha. unfold inOrder.
  induction s as [|b s IH]; intros Hsub Hs x y; simpl.
  - intros [[_ Hy]|H]%pair_sublist_cons; [by apply elem_of_nil in Hy|].
    by apply sublist_nil_r in H.
  - assert (b ∈ l) as Hb by (apply Hsub; by left).
    destruct (Z.leb_spec (cmp a b) 0) as [Hle|Hgt].
    + intros [[-> Hy]|H]%pair_sublist_cons; [|by apply Hs].
      apply elem_of_cons in Hy as [->|Hy]; [done|].
      apply (Htrans a b y); [done..|apply Hsub; by right|done|].
      apply Hs, pair_sublist_cons. by left.
    + intros [[-> Hy]|H]%pair_sublist_cons.
      * apply sort_insert_elem in Hy as [->|Hy].
        -- specialize (Hanti a b Ha Hb Hgt). lia.
        -- apply Hs, pair_sublist_cons. by left.
      * revert H. apply IH.
        -- intros z Hz. apply Hsub. by right.
        -- intros u v Huv. apply Hs, pair_sublist_cons. by right.
Qed.

Lemma sort_inOrder_within l l0 :
  consistentOn cmp l → (∀ x, x ∈ l0 → x ∈ l) → inOrder cmp (sort cmp l0).
Proof.
  intros Hcons. induction l0 as [|a l0 IH]; intros Hsub.
  - intros x y H. by apply sublist_nil_r in H.
  - rewrite sort_cons.
    apply (sort_insert_inOrder l); [done|apply Hsub; by left| |].
    + intros x Hx. apply (proj1 (sort_elem l0 x)) in Hx. apply Hsub. by right.
    + apply IH. intros x Hx. apply Hsub. by right.
Qed.

(** On a consistent comparator the sort leaves the list in comparator
    order. *)
Lemma sort_inOrder l : consistentOn cmp l → inOrder cmp (sort cmp l).
Proof. intros H. by apply (sort_inOrder_within l). Qed.

Lemma sort_insert_stable a s y :
  y ∈ s → (cmp a y ≤ 0)%Z → [a; y] `sublist_of` sort_insert cmp a s.
Proof.
  induction s as [|b s IH]; simpl; [by intros ?%elem_of_nil|].
  intros Hy Hle. destruct (Z.leb_spec (cmp a b) 0) as [Hab|Hab].
  - apply pair_sublist_cons. by left.
  - apply elem_of_cons in Hy as [->|Hy]; [lia|].
    apply pair_sublist_cons. right. by apply IH.
Qed.

(** The sort is stable, whatever the comparator. *)
Lemma sort_stable l : stableFor cmp l (sort cmp l).
Proof.
  unfold stableFor. induction l as [|a l IH]; intros x y.
  - by intros ?%sublist_nil_r.
  - rewrite sort_cons. intros [[-> Hy]|H]%pair_sublist_cons Hle.
    + apply sort_insert_stable; [by apply sort_elem | done].
    + etrans; [by apply IH | apply sort_insert_sublist].
Qed.

Lemma same_pairs_eq l1 l2 :
  NoDup l1 → l1 ≡ₚ l2 →
  (∀ x y, [x; y] `sublist_of` l1 → [x; y] `sublist_of` l2) → l1 = l2.
Proof.
  intros Hnd. revert l2. induction Hnd as [|a t Ha Hnd IH]; intros l2 Hperm Hp.
  - by apply Permutation_nil_l in Hperm.
  - assert (NoDup l2) as Hnd2 by (rewrite <- Hperm; by constructor).
    destruct l2 as [|b t2]; [by apply Permutation_nil_r in Hperm|].
    apply NoDup_cons in Hnd2 as [Hb Hnd2].
    assert (a ∈ b :: t2) as [->|Hat2]%elem_of_cons
      by (rewrite <- Hperm; by left).
    + f_equal. apply IH; [by apply Permutation_cons_inv in Hperm|].
      intros x y Hxy.
      assert ([x; y] `sublist_of` b :: t2) as H
        by (apply Hp, pair_sublist_cons; by right).
      apply pair_sublist_cons in H as [[-> _]|H]; [|done].
      by apply pair_sublist_elem in Hxy as [? _].
    + exfalso. assert (b ≠ a) as Hne by by intros ->.
      assert (b ∈ t) as Hbt.
      { assert (b ∈ a :: t) as [?|?]%elem_of_cons; [|done..].
        rewrite Hperm. by left. }
      assert ([a; b] `sublist_of` b :: t2) as H
        by (apply Hp, pair_sublist_cons; by left).
      apply pair_sublist_cons in H as [[-> _]|H]; [done|].
      by apply pair_sublist_elem in H as [_ ?].
Qed.

(** On a consistent comparator and distinct elements there is one
    rearrangement that is in comparator order and stable. *)
Lemma inOrder_stable_unique l l1 l2 :
  NoDup l → consistentOn cmp l →
  l1 ≡ₚ l → inOrder cmp l1 → stableFor cmp l l1 →
  l2 ≡ₚ l → inOrder cmp l2 → stableFor cmp l l2 →
  l1 = l2.
Proof.
  intros Hnd (Hanti & _ & _) Hp1 Ho1 Hs1 Hp2 Ho2 Hs2.
  assert (NoDup l1) as Hnd1 by by rewrite Hp1.
  apply same_pairs_eq; [done | by rewrite Hp1, Hp2 |].
  intros x y Hxy.
  destruct (pair_sublist_elem _ _ _ Hxy) as [Hx Hy].
  rewrite Hp1 in Hx, Hy.
  assert (x ≠ y) as Hne.
  { intros ->. by apply (pair_not_both y y l1). }
  destruct (pair_either x y l Hx Hy Hne) as [Hl|Hl].
  - apply Hs2; [done|]. by apply Ho1.
  - destruct (Z.leb_spec (cmp y x) 0) as [Hle|Hgt].
    + exfalso. apply (pair_not_both x y l1); [done..|]. by apply Hs1.
    + assert (x ∈ l2 ∧ y ∈ l2) as [Hx2 Hy2] by by rewrite Hp2.
      destruct (pair_either x y l2 Hx2 Hy2 Hne) as [H|H]; [done|].
      apply Ho2 in H. lia.
Qed.
End SortFacts.

(** ** Which child an entry finds *)

Lemma find_named e l :
  find (named e) l = head (childrenNamed (entry_name e) l).
Proof.
  unfold childrenNamed, named. induction l as [|x l IH]; [done|]. simpl.
  rewrite filter_cons.
  destruct (String.eqb_spec (route x) (entry_name e)) as [Heq|Hne];
    case_decide; done.
Qed.

Lemma childrenNamed_dropFirst n e l :
  childrenNamed n (dropFirst (named e) l)
  = if decide (entry_name e = n) then tail (childrenNamed n l)
    else childrenNamed n l.
Proof.
  unfold childrenNamed, named. induction l as [|x l IH].
  { by destruct (decide _). }
  simpl. rewrite (filter_cons _ x l).
  destruct (String.eqb_spec (route x) (entry_name e)) as [Heq|Hne].
  - repeat case_decide; try done; congruence.
  - rewrite filter_cons, IH. repeat case_decide; try done; congruence.
Qed.

Lemma remainingAfter_snoc pre e l :
  remainingAfter (pre ++ [e]) l = dropFirst (named e) (remainingAfter pre l).
Proof. unfold remainingAfter. by rewrite foldl_app. Qed.

Lemma remainingAfter_app pre post l :
  remainingAfter (pre ++ post) l = remainingAfter post (remainingAfter pre l).
Proof. unfold remainingAfter. by rewrite foldl_app. Qed.

Lemma remainingAfter_sublist pre l : remainingAfter pre l `sublist_of` l.
Proof.
  revert l. induction pre as [|e pre IH]; intros l; [done|].
  rewrite remainingAfter_cons. etrans; [apply IH | apply dropFirst_sublist].
Qed.

Lemma drop_S_tail {A} n (l : list A) : drop (S n) l = drop n (tail l).
Proof. destruct l; simpl; [by rewrite drop_nil | done]. Qed.

Lemma childrenNamed_remainingAfter n pre l :
  childrenNamed n (remainingAfter pre l)
  = drop (length (entriesNamed n pre)) (childrenNamed n l).
Proof.
  revert l. induction pre as [|e pre IH]; intros l; [done|].
  rewrite remainingAfter_cons, IH, childrenNamed_dropFirst.
  unfold entriesNamed. rewrite filter_cons.
  destruct (decide (entry_name e = n)); [|done].
  by rewrite length_cons, drop_S_tail.
Qed.

(** An entry finds, of the children of its name, the one after as many as
    there are earlier entries of that name. *)
Lemma find_remainingAfter pre e l :
  find (named e) (remainingAfter pre l) = matchedChild l pre e.
Proof.
  unfold matchedChild.
  rewrite find_named, childrenNamed_remainingAfter, head_lookup, lookup_drop.
  by rewrite Nat.add_0_r.
Qed.

(** As many children of each name as entries: every entry has a child to
    stand for. *)
Lemma counted_entries_matched children order pre e post :
  (∀ e, e ∈ order →
        (length (entriesNamed (entry_name e) order)
         ≤ length (childrenNamed (entry_name e) children))%nat) →
  order = pre ++ e :: post →
  is_Some (matchedChild children pre e).
Proof.
  intros Hcount ->. apply lookup_lt_is_Some_2.
  eapply Nat.lt_le_trans; [|apply (Hcount e)].
  - unfold entriesNamed. rewrite filter_app, filter_cons_True by done.
    rewrite length_app, length_cons. lia.
  - apply elem_of_app. right. by left.
Qed.

Lemma reconcile_matched children pre order :
  (∀ pre' e post', order = pre' ++ e :: post' →
                   is_Some (matchedChild children (pre ++ pre') e)) →
  reconcile order (remainingAfter pre children) =
    if existsb stringRedirect order then Throw redirectError
    else Return (explicitFrom children pre order,
                 remainingAfter (pre ++ order) children).
Proof.
  revert pre. induction order as [|e order IH]; intros pre Hall.
  { simpl. by rewrite (right_id_L [] (++)). }
  destruct (Hall [] e order eq_refl) as [m Hm].
  rewrite (right_id_L [] (++)) in Hm.
  cbn [reconcile explicitFrom existsb]. rewrite find_remainingAfter, Hm.
  rewrite <- remainingAfter_snoc, IH.
  2:{ intros pre' e' post' ->. rewrite <- (assoc_L (++)). simpl.
      by apply (Hall (e :: pre') e' post'). }
  rewrite <- (assoc_L (++)). simpl. unfold stringRedirect.
  destruct (truthy (redirect e)), (typeof_string (redirect e)); simpl;
    by destruct (existsb _ order).
Qed.

Lemma explicitFrom_names children pre order :
  (∀ pre' e post', order = pre' ++ e :: post' →
                   is_Some (matchedChild children (pre ++ pre') e)) →
  (route ∘ Child.route) <$> explicitFrom children pre order
  = entry_name <$> filter (λ e, truthy (redirect e) = false) order.
Proof.
  revert pre. induction order as [|e order IH]; intros pre Hall; [done|].
  destruct (Hall [] e order eq_refl) as [m Hm].
  rewrite (right_id_L [] (++)) in Hm.
  cbn [explicitFrom]. rewrite fmap_app, filter_cons, IH.
  2:{ intros pre' e' post' ->. rewrite <- (assoc_L (++)). simpl.
      by apply (Hall (e :: pre') e' post'). }
  destruct (truthy (redirect e)).
  - by rewrite decide_False.
  - rewrite decide_True, Hm by done. simpl. f_equal.
    apply list_elem_of_lookup_2, list_elem_of_filter in Hm. by destruct Hm.
Qed.

(** The comparator modelled from the specification is consistent on a list
    in which at most one node bears the name of the initial route. *)
Lemma sortRoutesWithInitial_spec_consistent initialRouteName l :
  (∀ a b, a ∈ l → b ∈ l →
          Some (route a) = initialRouteName → Some (route b) = initialRouteName →
          a = b) →
  consistentOn (sortRoutesWithInitial_spec initialRouteName) l.
Proof.
  intros Hone. unfold consistentOn, sortRoutesWithInitial_spec.
  destruct initialRouteName as [initial|]; [|repeat split; intros; lia].
  repeat split.
  - intros a b _ _.
    destruct (String.eqb_spec (route a) initial),
             (String.eqb_spec (route b) initial); lia.
  - intros a b Ha Hb Hne.
    destruct (String.eqb_spec (route a) initial) as [Ea|],
             (String.eqb_spec (route b) initial) as [Eb|]; try lia.
    destruct Hne. apply Hone; [done..| |]; by f_equal.
  - intros a b c _ _ _.
    destruct (String.eqb_spec (route a) initial),
             (String.eqb_spec (route b) initial),
             (String.eqb_spec (route c) initial); lia.
Qed.

(** An entry whose name no earlier entry bears finds in the working copy
    the child it would find in [children]. *)
Lemma first_use_matches pre e es :
  entry_name e ∉ entry_name <$> pre →
  find (named e) (remainingAfter pre es) = find (named e) es.
Proof.
  revert es. induction pre as [|e' pre IH]; intros es Hnotin; [done|].
  rewrite fmap_cons in Hnotin. apply not_elem_of_cons in Hnotin as [Hne Hnotin].
  rewrite remainingAfter_cons, IH by done.
  apply find_dropFirst. intros x. by apply named_distinct.
Qed.

(** ** The order reconciler: properties *)

Section ReconcilerProperties.
Variable sortRoutesWithInitial : option string → RouteNode → RouteNode → Z.

Local Abbreviation getSorted := (getSortedChildren sortRoutesWithInitial).

(** What a returning call emits, with what redirect entries consumed, is
    a rearrangement of [children]. *)
Lemma getSortedChildren_returns_perm children order initialRouteName out :
  completion (getSorted children order initialRouteName) = Return out →
  routesOf out ++ redirected (orderList order) children ≡ₚ children.
Proof.
  rewrite getSortedChildren_completion.
  destruct (reconcile _ _) as [[ordered rest]|] eqn:Hrec; [|done].
  intros [= <-]. rewrite routesOf_output.
  apply reconcile_perm in Hrec.
  etrans; [|exact Hrec]. rewrite sort_perm, <- (assoc_L (++)).
  f_equiv. apply Permutation_app_comm.
Qed.

(** C1 (amended): whenever [getSortedChildren] returns, the RouteNodes of
    its output together with the nodes consumed by order entries with a
    truthy redirect form a permutation of [children].  So no node is added,
    a node of distinct children appears at most once in the output, and a
    node is missing from the output only when such an entry consumed it;
    with no truthy redirect in the ordering the output's nodes are a
    permutation of [children]. *)
Theorem getSortedChildren_permutation children order initialRouteName out :
  completion (getSorted children order initialRouteName) = Return out →
  routesOf out ++ redirected (orderList order) children ≡ₚ children
  ∧ (NoDup children → NoDup (routesOf out))
  ∧ (Forall (λ e, truthy (redirect e) = false) (orderList order) →
     routesOf out ≡ₚ children).
Proof.
  intros Hperm%getSortedChildren_returns_perm.
  split; [done|]. split.
  - intros Hnd. rewrite <- Hperm in Hnd. by apply NoDup_app in Hnd as [? _].
  - intros Hno. rewrite (redirected_nil _ _ Hno) in Hperm.
    by rewrite (right_id_L [] (++)) in Hperm.
Qed.

(** C2: when there are as many children of each name as entries naming it
    (every entry names an existing child and no two entries the same one) and
    the comparator is consistent on the children that no entry takes, the call
    fails exactly when an entry carries a non-empty string redirect.
    Otherwise its output is, in entry order, one descriptor per entry without
    a truthy redirect, for the child the entry stands for and with the
    entry's props, followed by the remaining children paired with empty
    props.  The remaining children are the children without, for each name,
    as many of the first of that name as entries name it; they come in
    comparator order (no node stands before one it comes after), nodes that
    were in comparator order keep their order, and for distinct children that
    is the one such rearrangement. *)
Theorem explicit_order_precedence children order initialRouteName :
let ordering := orderList order in
let compareFn := sortRoutesWithInitial initialRouteName in
let remaining := remainingAfter ordering children in
let rest := sort compareFn remaining in
(∀ e, e ∈ ordering →
      (length (entriesNamed (entry_name e) ordering)
       ≤ length (childrenNamed (entry_name e) children))%nat) →
consistentOn compareFn remaining →
completion (getSorted children order initialRouteName) =
  (if existsb stringRedirect ordering then Throw redirectError
   else Return (explicitEntries children ordering
                ++ (withEmptyProps <$> rest)))
∧ (route ∘ Child.route) <$> explicitEntries children ordering
  = entry_name <$> filter (λ e, truthy (redirect e) = false) ordering
∧ remaining `sublist_of` children
∧ (∀ segment, childrenNamed segment remaining
              = drop (length (entriesNamed segment ordering))
                     (childrenNamed segment children))
∧ rest ≡ₚ remaining
∧ inOrder compareFn rest
∧ stableFor compareFn remaining rest
∧ (NoDup children →
   ∀ l', l' ≡ₚ remaining → inOrder compareFn l' →
         stableFor compareFn remaining l' → l' = rest).
Proof.
intros ordering compareFn remaining rest Hcount Hcons.
assert (∀ pre e post, ordering = pre ++ e :: post →
          is_Some (matchedChild children ([] ++ pre) e)) as Hall.
{ intros pre e post. by apply counted_entries_matched. }
split.
{ rewrite getSortedChildren_completion. fold ordering.
  change children with (remainingAfter [] children) at 1.
  rewrite (reconcile_matched children [] ordering Hall).
  by destruct (existsb _ _). }
split; [by apply explicitFrom_names|].
split; [apply remainingAfter_sublist|].
split; [intros segment; apply childrenNamed_remainingAfter|].
split; [apply sort_perm|].
split; [by apply sort_inOrder|].
split; [apply sort_stable|].
intros Hnd l' Hperm Hord Hst.
apply (inOrder_stable_unique compareFn remaining); try done.
- eapply sublist_NoDup; [exact Hnd | apply remainingAfter_sublist].
- apply sort_perm.
- by apply sort_inOrder.
- apply sort_stable.
Qed.

(** C3: an order entry that finds its node in the working copy and whose
    redirect is a non-empty string makes the call raise the redirect
    error, whatever the other entries are; with any other truthy redirect
    the callback emits nothing for the entry ([null]) while the node leaves
    the working copy, and that node is not among the nodes of the
    output. *)
Theorem redirect_entries children pre e post initialRouteName m :
  find (named e) (remainingAfter pre children) = Some m →
  truthy (redirect e) = true →
  let call := getSorted children (Some (pre ++ e :: post)) initialRouteName in
  (typeof_string (redirect e) = true →
   completion call = Throw redirectError)
  ∧ (typeof_string (redirect e) = false →
     (∀ fr, entries fr = remainingAfter pre children →
            orderCallback children e fr
            = Normal None (mkFrame (dropFirst (named e) (entries fr))
                                   (console fr)))
     ∧ (∀ out, completion call = Return out → NoDup children →
               m ∉ routesOf out)).
Proof.
  intros Hfind Ht call. split; [|intros Hs; split].
  - intros Hs. unfold call. rewrite getSortedChildren_completion.
    unfold orderList. simpl.
    rewrite (reconcile_string_redirect _ _ _ _ m); [done..|].
    unfold stringRedirect. by rewrite Ht, Hs.
  - intros fr Hfr.
    rewrite (orderCallback_match _ _ _ m); [|by rewrite Hfr].
    simpl. by rewrite Ht, Hs.
  - clear Hs. intros out Hout Hnd Hin.
    apply getSortedChildren_returns_perm in Hout as Hperm.
    rewrite <- Hperm in Hnd. apply NoDup_app in Hnd as (_ & Hdisj & _).
    apply (Hdisj m Hin). by apply redirected_elem.
Qed.

(** C10: an order entry whose redirect is the empty string and which
    finds its node behaves as one without redirect: the callback returns
    the descriptor of the matched node with the entry's props, the
    descriptor is in the output of every call that returns, and the call
    returns unless another entry carries a non-empty string redirect. *)
Theorem empty_string_redirect children pre e post initialRouteName m :
  redirect e = JStr "" →
  find (named e) (remainingAfter pre children) = Some m →
  let call := getSorted children (Some (pre ++ e :: post)) initialRouteName in
  let descriptor := Child.mk m (entryProps e) in
  (∀ fr, entries fr = remainingAfter pre children →
         orderCallback children e fr
         = Normal (Some descriptor)
                  (mkFrame (dropFirst (named e) (entries fr)) (console fr)))
  ∧ (∀ out, completion call = Return out → descriptor ∈ out)
  ∧ (Forall (λ e', stringRedirect e' = false) (pre ++ post) →
     ∃ out, completion call = Return out).
Proof.
  intros Hred Hfind call descriptor.
  assert (truthy (redirect e) = false) as Ht by by rewrite Hred.
  split; [|split].
  - intros fr Hfr. rewrite (orderCallback_match _ _ _ m); [|by rewrite Hfr].
    simpl. by rewrite Ht.
  - intros out. unfold call. rewrite getSortedChildren_completion.
    unfold orderList. simpl.
    destruct (reconcile _ _) as [[ordered rest]|] eqn:Hrec; [|done].
    intros [= <-]. apply elem_of_app. left.
    by eapply reconcile_emits.
  - intros Hno. unfold call. rewrite getSortedChildren_completion.
    unfold orderList. simpl.
    destruct (reconcile _ _) as [[ordered rest]|err] eqn:Hrec;
      [by eexists|].
    apply reconcile_Throw in Hrec as (_ & e' & He' & Hs).
    apply elem_of_app in He' as [He'|He'].
    + rewrite Forall_forall in Hno. rewrite Hno in Hs; [done|].
      apply elem_of_app. by left.
    + apply elem_of_cons in He' as [->|He'].
      * unfold stringRedirect in Hs. by rewrite Ht in Hs.
      * rewrite Forall_forall in Hno. rewrite Hno in Hs; [done|].
        apply elem_of_app. by right.
Qed.
End ReconcilerProperties.

(** *** The reconciler on sample inputs *)


Example reconcile_scenario :
  completion (getSortedChildren sortRoutesWithInitial_spec
                [routeA; routeB; routeC] (Some [entryFor "B" JUndefined])
                (Some "C"))
  = Return [Child.mk routeB (entryProps (entryFor "B" JUndefined));
            withEmptyProps routeC; withEmptyProps routeA].
Proof. reflexivity. Qed.

(** An entry finds a node only while one of its name is left: after a
    first entry took [B], a second entry for [B] is extraneous and its
    redirect is never looked at. *)
Example redirect_of_unmatched_entry_ignored :
  completion (getSortedChildren sortRoutesWithInitial_spec [routeB]
                (Some [entryFor "B" JUndefined; entryFor "B" (JStr "/somewhere")])
                None)
  = Return [Child.mk routeB (entryProps (entryFor "B" JUndefined))].
Proof. reflexivity. Qed.

(** C1, as written, fails: an entry with a truthy redirect that is not a
    string takes its node out of the working copy and emits nothing, so the
    node is in [children] and not in the output. *)
Lemma getSortedChildren_loses_redirected_node :
  completion (getSortedChildren sortRoutesWithInitial_spec
                [routeA; routeB] (Some [entryFor "A" (JBool true)]) None)
  = Return [withEmptyProps routeB]
  ∧ routeA ∈ [routeA; routeB]
  ∧ routeA ∉ routesOf [withEmptyProps routeB].
Proof.
  split; [reflexivity|]. split; [by left|].
  intros H. apply list_elem_of_singleton in H. discriminate H.
Qed.

Lemma getSortedChildren_permutation_witness :
  routesOf [Child.mk routeB (entryProps (entryFor "B" JUndefined));
            withEmptyProps routeC; withEmptyProps routeA]
  ≡ₚ [routeA; routeB; routeC].
Proof.
  apply (getSortedChildren_permutation sortRoutesWithInitial_spec
           [routeA; routeB; routeC] (Some [entryFor "B" JUndefined])
           (Some "C")).
  - reflexivity.
  - repeat constructor.
Defined.

Lemma explicit_order_precedence_witness :
  completion (getSortedChildren sortRoutesWithInitial_spec
                [routeA; routeB; routeC]
                (Some [entryFor "B" JUndefined]) (Some "C"))
  = Return [Child.mk routeB (entryProps (entryFor "B" JUndefined));
            withEmptyProps routeC; withEmptyProps routeA]
  ∧ completion (getSortedChildren sortRoutesWithInitial_spec
                  [routeA; routeB; routeA'; routeC]
                  (Some [entryFor "A" (JNum 1); entryFor "C" (JBool true);
                         entryFor "A" (JNum 0)])
                  None)
    = Return [Child.mk routeA' (entryProps (entryFor "A" (JNum 0)));
              withEmptyProps routeB].
Proof.
  split.
  - apply (explicit_order_precedence sortRoutesWithInitial_spec
             [routeA; routeB; routeC] (Some [entryFor "B" JUndefined])
             (Some "C")).
    + intros e He. apply list_elem_of_singleton in He as ->.
      vm_compute. lia.
    + apply sortRoutesWithInitial_spec_consistent. intros a b Ha Hb Ea Eb.
      simpl in Ha, Hb.
      apply elem_of_cons in Ha as [->|Ha]; [discriminate Ea|].
      apply list_elem_of_singleton in Ha as ->.
      apply elem_of_cons in Hb as [->|Hb]; [discriminate Eb|].
      by apply list_elem_of_singleton in Hb as ->.
  - apply (explicit_order_precedence sortRoutesWithInitial_spec
             [routeA; routeB; routeA'; routeC]
             (Some [entryFor "A" (JNum 1); entryFor "C" (JBool true);
                    entryFor "A" (JNum 0)]) None).
    + intros e He. simpl in He.
      repeat (apply elem_of_cons in He as [->|He]; [vm_compute; lia|]).
      by apply elem_of_nil in He.
    + apply sortRoutesWithInitial_spec_consistent. intros a b _ _ Ea.
      discriminate Ea.
Defined.

Lemma redirect_entries_witness :
  completion (getSortedChildren sortRoutesWithInitial_spec
                [routeA; routeB; routeC]
                (Some [entryFor "A" JUndefined; entryFor "B" (JStr "/somewhere");
                       entryFor "C" JUndefined]) None)
  = Throw redirectError
  ∧ routeB ∉ routesOf [withEmptyProps routeA; withEmptyProps routeC].
Proof.
  split.
  - apply (redirect_entries sortRoutesWithInitial_spec
             [routeA; routeB; routeC] [entryFor "A" JUndefined]
             (entryFor "B" (JStr "/somewhere")) [entryFor "C" JUndefined]
             None routeB); reflexivity.
  - apply (redirect_entries sortRoutesWithInitial_spec
             [routeA; routeB; routeC] []
             (entryFor "B" (JObj ∅)) [] None routeB);
      [reflexivity | reflexivity | reflexivity | reflexivity |].
    distinct_elements.
Defined.

Lemma empty_string_redirect_witness :
  Child.mk routeB (entryProps (entryFor "B" (JStr "")))
  ∈ [Child.mk routeB (entryProps (entryFor "B" (JStr "")));
     withEmptyProps routeA].
Proof.
  apply (empty_string_redirect sortRoutesWithInitial_spec
           [routeA; routeB] [] (entryFor "B" (JStr "")) [] None routeB);
    reflexivity.
Defined.

(** C9: with no ordering the function sorts [children] itself, so the
    caller's array comes back rearranged; here the initial route moves to
    the front. *)
Lemma getSortedChildren_sorts_callers_array :
  children_after (getSortedChildren sortRoutesWithInitial_spec
                    [routeA; routeB; routeC] None (Some "C"))
  = [routeC; routeA; routeB]
  ∧ [routeC; routeA; routeB] ≠ [routeA; routeB; routeC].
Proof. split; [reflexivity | discriminate]. Qed.

(** ** The identifier generator: properties *)

Lemma Map_set_keys {V} k (v : V) m :
  ∀ x, x ∈ (Map_set k v m).*1 ↔ x = k ∨ x ∈ m.*1.
Proof.
  induction m as [|[k' v'] m IH]; intros x; simpl.
  - rewrite list_elem_of_singleton, elem_of_nil. tauto.
  - destruct (String.eqb_spec k' k) as [->|Hne]; simpl.
    + rewrite !elem_of_cons. tauto.
    + rewrite !elem_of_cons, IH. tauto.
Qed.

Lemma Map_set_fresh {V} k (v : V) m :
  k ∉ m.*1 → Map_set k v m = m ++ [(k, v)].
Proof.
  induction m as [|[k' v'] m IH]; simpl; [done|].
  intros [Hne Hnotin]%not_elem_of_cons.
  destruct (String.eqb_spec k' k) as [->|_]; [done|]. by rewrite IH.
Qed.

Lemma Map_set_named k (v : DynamicSegment) m :
  name v = k →
  Forall (λ kv, name kv.2 = kv.1) m →
  Forall (λ kv, name kv.2 = kv.1) (Map_set k v m).
Proof.
  intros Hv. induction 1 as [|[k' v'] m Hkv Hm IH]; simpl.
  - by repeat constructor.
  - destruct (String.eqb k' k); by constructor.
Qed.

Lemma includeFrom_named acc segs :
  Forall (λ kv, name kv.2 = kv.1) acc →
  Forall (λ kv, name kv.2 = kv.1) (includeFrom acc segs).
Proof.
  revert acc. induction segs as [|d segs IH]; intros acc Hacc; simpl; [done|].
  apply IH. by apply Map_set_named.
Qed.

Lemma includeFrom_keys acc segs :
  ∀ x, x ∈ (includeFrom acc segs).*1 ↔ x ∈ acc.*1 ∨ x ∈ name <$> segs.
Proof.
  revert acc. induction segs as [|d segs IH]; intros acc x; simpl.
  - rewrite elem_of_nil. tauto.
  - rewrite IH, Map_set_keys, elem_of_cons. tauto.
Qed.

Lemma includeFrom_distinct acc segs :
  NoDup (name <$> segs) →
  (∀ x, x ∈ name <$> segs → x ∉ acc.*1) →
  includeFrom acc segs = acc ++ ((λ d, (name d, d)) <$> segs).
Proof.
  revert acc. induction segs as [|d segs IH]; intros acc Hnd Hdisj; simpl.
  - by rewrite (right_id_L [] (++)).
  - apply NoDup_cons in Hnd as [Hd Hnd].
    rewrite Map_set_fresh by (apply Hdisj; by left).
    rewrite IH; [by rewrite <- (assoc_L (++))|done|].
    intros x Hx. rewrite fmap_app, elem_of_app. simpl.
    rewrite list_elem_of_singleton. intros [Hacc| ->]; [|done].
    apply (Hdisj x); [by right | done].
Qed.

Lemma includeOf_from route : includeOf route = includeFrom [] (dynamicOf route).
Proof. unfold includeOf, dynamicOf. by destruct (dynamic route). Qed.

Lemma named_values_keys (m : list (string * DynamicSegment)) :
  Forall (λ kv, name kv.2 = kv.1) m → name <$> Map_values m = m.*1.
Proof.
  unfold Map_values. induction 1 as [|[k v] m Hkv _ IH]; [done|].
  rewrite !fmap_cons. simpl in Hkv |- *. by f_equal.
Qed.

(** The names under which [include] holds segments are the names of the
    route's dynamic segments. *)
Lemma include_names route :
  ∀ x, x ∈ name <$> Map_values (includeOf route)
       ↔ x ∈ name <$> dynamicOf route.
Proof.
  intros x. rewrite includeOf_from.
  pose proof (includeFrom_named [] (dynamicOf route) (Forall_nil_2 _)) as Hn.
  pose proof (includeFrom_keys [] (dynamicOf route) x) as Hk.
  simpl in Hk. rewrite elem_of_nil in Hk.
  rewrite (named_values_keys _ Hn). tauto.
Qed.

(** With pairwise distinct names [include] lists the segments as
    declared. *)
Lemma include_values_distinct route :
  NoDup (name <$> dynamicOf route) →
  Map_values (includeOf route) = dynamicOf route.
Proof.
  intros Hnd. rewrite includeOf_from, includeFrom_distinct; [|done|].
  - simpl. unfold Map_values. rewrite <- list_fmap_compose.
    apply list_fmap_id.
  - intros x _. apply not_elem_of_nil.
Qed.

(** The [for] loop over [include.values()]. *)
Lemma getId_loop ps (l : list DynamicSegment) segments unprocessed :
  foldl (λ '(segments, unprocessed) dynamic,
           (segments ++ [segmentId ps dynamic],
            Set_delete (name dynamic) unprocessed))
        (segments, unprocessed) l
  = (segments ++ (segmentId ps <$> l),
     filter (λ key, key ∉ name <$> l) unprocessed).
Proof.
  revert segments unprocessed.
  induction l as [|d l IH]; intros segments unprocessed; simpl.
  - rewrite (right_id_L [] (++)). f_equal. symmetry.
    induction unprocessed as [|k u IHu]; [done|].
    rewrite filter_cons_True by apply not_elem_of_nil. by rewrite IHu.
  - rewrite IH, <- (assoc_L (++)). f_equal. unfold Set_delete.
    rewrite list_filter_filter. apply list_filter_iff.
    intros key. rewrite not_elem_of_cons. tauto.
Qed.

Lemma reservedKey_false key :
  reservedKey key = false ↔ key ≠ "screen" ∧ key ≠ "params".
Proof.
  unfold reservedKey. rewrite orb_false_iff.
  by rewrite !String.eqb_neq.
Qed.

(** The generated function in one equation. *)
Lemma createGetIdForRoute_unfold route ctx :
  createGetIdForRoute route ctx =
    let ps := paramsOf ctx in
    let base := join "/" (segmentId ps <$> Map_values (includeOf route)) in
    let searchParams :=
      match children route with
      | Some [] => serialized ps <$> residualKeys route ps
      | _ => []
      end in
    if bool_decide (searchParams = []) then base
    else (if String.eqb base "" then contextKey route else base)
           +:+ "?" +:+ join "&" searchParams.
Proof.
  unfold createGetIdForRoute. fold (paramsOf ctx).
  rewrite getId_loop. simpl.
  rewrite list_filter_filter.
  assert (filter (λ key, reservedKey key = false
                         ∧ key ∉ name <$> Map_values (includeOf route))
                 (Set_new (Object_keys (paramsOf ctx)))
          = residualKeys route (paramsOf ctx)) as ->; [|done].
  apply list_filter_iff. intros key.
  rewrite reservedKey_false, (include_names route key). tauto.
Qed.

Lemma Map_set_elem {V} k (v : V) m x :
  NoDup m.*1 →
  x ∈ Map_set k v m → x = (k, v) ∨ (x ∈ m ∧ x.1 ≠ k).
Proof.
  induction m as [|[k' v'] m IH]; simpl.
  - intros _ ->%list_elem_of_singleton. by left.
  - rewrite ?fmap_cons. intros [Hk' Hnd]%NoDup_cons. simpl in Hk'.
    destruct (String.eqb_spec k' k) as [->|Hne].
    + intros [->|Hx]%elem_of_cons; [by left|].
      right. split; [by right|]. intros Hk. apply Hk'.
      rewrite <- Hk. by apply list_elem_of_fmap_2.
    + intros [->|Hx]%elem_of_cons; [right; split; [by left | done]|].
      destruct (IH Hnd Hx) as [->|[Hin Hk]]; [by left|].
      right. split; [by right | done].
Qed.

Lemma Map_set_NoDup {V} k (v : V) m : NoDup m.*1 → NoDup (Map_set k v m).*1.
Proof.
  induction m as [|[k' v'] m IH]; simpl.
  - intros _. apply NoDup_singleton.
  - rewrite ?fmap_cons. intros [Hk' Hnd]%NoDup_cons. simpl in Hk'.
    destruct (String.eqb_spec k' k) as [->|Hne]; rewrite ?fmap_cons; simpl.
    + by apply NoDup_cons.
    + apply NoDup_cons. split; [|by apply IH].
      rewrite Map_set_keys. by intros [?|?].
Qed.

Lemma includeFrom_NoDup acc segs :
  NoDup acc.*1 → NoDup (includeFrom acc segs).*1.
Proof.
  revert acc. induction segs as [|d segs IH]; intros acc Hacc; simpl; [done|].
  by apply IH, Map_set_NoDup.
Qed.

(** Where a binding of [include] comes from: the starting map, for a name
    no segment bears, or the last segment declared with its name. *)
Lemma includeFrom_last acc segs k v :
  NoDup acc.*1 →
  (k, v) ∈ includeFrom acc segs →
  ((k, v) ∈ acc ∧ k ∉ name <$> segs)
  ∨ ∃ l1 l2, segs = l1 ++ v :: l2 ∧ name v = k ∧ k ∉ name <$> l2.
Proof.
  revert acc. induction segs as [|d segs IH]; intros acc Hacc; simpl.
  - intros Hin. left. split; [done | apply not_elem_of_nil].
  - intros [[Hin Hk]|(l1 & l2 & -> & Hn & Hk)]%IH;
      [|right; by exists (d :: l1), l2 | by apply Map_set_NoDup].
    apply (Map_set_elem _ _ _ _ Hacc) in Hin as [[= -> ->]|[Hin Hne]].
    + right. by exists [], segs.
    + left. split; [done|]. rewrite ?fmap_cons.
      apply not_elem_of_cons. split; [done | exact Hk].
Qed.

Lemma Map_set_keys_eq {V} k (v : V) m :
  (Map_set k v m).*1 = if decide (k ∈ m.*1) then m.*1 else m.*1 ++ [k].
Proof.
  induction m as [|[k' v'] m IH].
  - destruct (decide (k ∈ ([] : list (string * V)).*1)) as [Hin|_]; [|done].
    by apply elem_of_nil in Hin.
  - cbn [Map_set]. rewrite !fmap_cons. cbn [fst].
    destruct (String.eqb_spec k' k) as [->|Hne].
    + rewrite fmap_cons. cbn [fst].
      destruct (decide (k ∈ k :: m.*1)) as [_|Hout]; [done|].
      destruct Hout. by left.
    + rewrite fmap_cons, IH. cbn [fst].
      destruct (decide (k ∈ m.*1)) as [Hin|Hin],
               (decide (k ∈ k' :: m.*1)) as [Hin'|Hin']; try done.
      * destruct Hin'. by right.
      * apply elem_of_cons in Hin' as [->|?]; done.
Qed.

(** The names of [include], in order: those it starts with, then the
    names of the segments that are new, each at its first place. *)
Lemma includeFrom_keys_order acc segs :
  (includeFrom acc segs).*1
  = acc.*1 ++ filter (λ x, x ∉ acc.*1) (firstOccurrences (name <$> segs)).
Proof.
  revert acc. induction segs as [|d segs IH]; intros acc.
  { unfold includeFrom. cbn [foldl fmap list_fmap firstOccurrences].
    by rewrite filter_nil, (right_id_L [] (++)). }
  cbn [includeFrom foldl]. fold (includeFrom (Map_set (name d) d acc) segs).
  rewrite IH, Map_set_keys_eq, fmap_cons. cbn [firstOccurrences].
  rewrite filter_cons.
  destruct (decide (name d ∈ acc.*1)) as [Hin|Hin];
    destruct (decide (name d ∉ acc.*1)) as [Hout|Hout]; try done.
  - f_equal. rewrite list_filter_filter. apply list_filter_iff. intros x.
    split; [intros Hx | by intros [? _]]. split; [done|]. by intros ->.
  - rewrite <- (assoc_L (++)). f_equal. simpl. f_equal.
    rewrite list_filter_filter. apply list_filter_iff. intros x.
    rewrite not_elem_of_app, list_elem_of_singleton. tauto.
Qed.

Lemma filter_True_id {A} (P : A → Prop) `{!∀ x, Decision (P x)} (l : list A) :
  (∀ x, P x) → filter P l = l.
Proof.
  intros HP. induction l as [|x l IH]; [done|].
  by rewrite filter_cons_True, IH.
Qed.

Lemma segmentId_text ps d : segmentId ps d = segmentText ps d.
Proof.
  unfold segmentId, segmentText, placeholder.
  destruct (param_get ps (name d)) as [[[|c s]|[|x l]]|]; reflexivity.
Qed.

(** C4, as written, fails: a parameter that is present as the empty string
    is not used; the segment gets its placeholder. *)
Lemma getId_empty_string_parameter :
  createGetIdForRoute postRoute (withParams [("post", PStr "")]) = "[post]"
  ∧ join "/" (segmentId_asWritten [("post", PStr "")] <$> dynamicOf postRoute)
    = ""
  ∧ createGetIdForRoute postRoute (withParams [("post", PStr "")])
    ≠ join "/" (segmentId_asWritten [("post", PStr "")] <$> dynamicOf postRoute).
Proof. split; [reflexivity|]. split; [reflexivity | discriminate]. Qed.

(** Two more departures from the wording of C4: an empty array for a deep
    segment gives the deep placeholder, and segments that share a name are
    processed once, with the segment declared last. *)
Example getId_empty_array_deep :
  let route := mkRouteNode 6 "[...rest]" "./[...rest].js" (Some [])
                 (Some [mkDynamic "rest" true]) None false (Resolved emptyModule) in
  createGetIdForRoute route (withParams [("rest", PArr [])]) = "[...rest]"
  ∧ segmentId_asWritten [("rest", PArr [])] (mkDynamic "rest" true) = "[rest]".
Proof. split; reflexivity. Qed.

Example getId_shared_segment_name :
  let route := mkRouteNode 8 "[id]/[...id]" "./[id]/[...id].js" (Some [])
                 (Some [mkDynamic "id" false; mkDynamic "id" true]) None false
                 (Resolved emptyModule) in
  createGetIdForRoute route (withParams []) = "[...id]".
Proof. reflexivity. Qed.

(** C4 (amended): the generated function makes one string per distinct
    name of a dynamic segment: the names come in the order in which they
    first occur among the declared segments, and each name stands for the
    segment declared last with it, so these are the declared segments in
    declared order when their names are pairwise distinct.  The string of a
    segment is the parameter joined with [/] when it is a non-empty array, the
    parameter when it is a non-empty string, otherwise [[...name]] for a deep
    segment and [[name]] for the others; this for segments that do not bear
    the name of a member of [Object.prototype], which the code would read
    where the parameter is absent.  Joined with [/] the strings are the
    identifier whenever no residual parameters are appended.  With the one
    segment [post], params [{post:"42"}] give ["42"] and params [{}] give
    ["[post]"]. *)
Theorem getId_dynamic_segments route ctx :
  let ps := paramsOf ctx in
  let segments := Map_values (includeOf route) in
  name <$> segments = firstOccurrences (name <$> dynamicOf route)
  ∧ (∀ d, d ∈ segments →
          ∃ l1 l2, dynamicOf route = l1 ++ d :: l2 ∧ name d ∉ name <$> l2)
  ∧ (NoDup (name <$> dynamicOf route) → segments = dynamicOf route)
  ∧ ((∀ d, d ∈ dynamicOf route → name d ∉ Object_prototype_names) →
     residualKeys route ps = [] ∨ children route ≠ Some [] →
     createGetIdForRoute route ctx = join "/" (segmentText ps <$> segments))
  ∧ (dynamic route = Some [mkDynamic "post" false] →
     createGetIdForRoute route (withParams [("post", PStr "42")]) = "42"
     ∧ createGetIdForRoute route (withParams []) = "[post]").
Proof.
  intros ps segments. split; [|split; [|split; [|split]]].
  - unfold segments. rewrite includeOf_from.
    rewrite (named_values_keys _ (includeFrom_named [] _ (Forall_nil_2 _))).
    rewrite includeFrom_keys_order. simpl. apply filter_True_id.
    intros x. apply not_elem_of_nil.
  - unfold segments. rewrite includeOf_from. unfold Map_values.
    intros d ([k v] & -> & Hin)%list_elem_of_fmap. simpl.
    apply includeFrom_last in Hin as [[Hin _]|(l1 & l2 & Hsegs & Hn & Hk)];
      [by apply elem_of_nil in Hin | | apply NoDup_nil_2].
    exists l1, l2. by rewrite Hn.
  - apply include_values_distinct.
  - intros _ Hno. rewrite createGetIdForRoute_unfold. fold ps. simpl.
    assert (match children route with
            | Some [] => serialized ps <$> residualKeys route ps
            | _ => []
            end = []) as ->.
    { destruct Hno as [->|Hne]; [by destruct (children route) as [[|]|]|].
      by destruct (children route) as [[|]|]. }
    simpl. f_equal. apply list_fmap_ext. intros _ d _. apply segmentId_text.
  - intros Hdyn. rewrite !createGetIdForRoute_unfold.
    unfold residualKeys, dynamicOf, includeOf. rewrite Hdyn.
    by destruct (children route) as [[|]|].
Qed.

Lemma getId_dynamic_segments_witness :
  (createGetIdForRoute postRoute (withParams [("post", PStr "42")]) = "42"
   ∧ createGetIdForRoute postRoute (withParams []) = "[post]")
  ∧ createGetIdForRoute repeatedRoute
      (withParams [("a", PArr ["x"; "y"]); ("c", PStr "z")])
    = "x/y/[b]/z"
  ∧ createGetIdForRoute repeatedRoute (withParams [("b", PStr "")])
    = "[...a]/[b]/[c]".
Proof.
  assert (∀ d, d ∈ dynamicOf repeatedRoute →
               name d ∉ Object_prototype_names) as Hplain.
  { intros d Hd. simpl in Hd.
    repeat (apply elem_of_cons in Hd as [->|Hd]; [not_listed|]).
    by apply elem_of_nil in Hd. }
  split; [|split].
  - apply (getId_dynamic_segments postRoute None). reflexivity.
  - apply (getId_dynamic_segments repeatedRoute
             (withParams [("a", PArr ["x"; "y"]); ("c", PStr "z")]));
      [exact Hplain | by left].
  - apply (getId_dynamic_segments repeatedRoute
             (withParams [("b", PStr "")])); [exact Hplain | by left].
Defined.

(** C5: on a leaf route with residual keys, which are the keys of the
    parameter bag that no dynamic segment consumes and that are neither
    [screen] nor [params], the identifier is [base?residuals]: the base is the
    joined dynamic-segment string, or the route's [contextKey] when that is
    empty, and the residuals are [key=value] joined with [&].  With no
    residual key, and on every route that is not a leaf, the identifier is
    the joined dynamic-segment string alone.  A leaf without dynamic segments
    and params [{q:"abc"}] gives [<contextKey>?q=abc]. *)
Theorem getId_residual_params route ctx :
  let ps := paramsOf ctx in
  let base := join "/" (segmentId ps <$> Map_values (includeOf route)) in
  let residual := residualKeys route ps in
  (children route = Some [] → residual ≠ [] →
   createGetIdForRoute route ctx
   = (if String.eqb base "" then contextKey route else base)
       +:+ "?" +:+ join "&" (serialized ps <$> residual))
  ∧ (children route = Some [] → residual = [] →
     createGetIdForRoute route ctx = base)
  ∧ (children route ≠ Some [] → createGetIdForRoute route ctx = base)
  ∧ (children route = Some [] → dynamicOf route = [] →
     createGetIdForRoute route (withParams [("q", PStr "abc")])
     = contextKey route +:+ "?q=abc").
Proof.
  intros ps base residual. repeat split.
  - intros Hleaf Hres. rewrite createGetIdForRoute_unfold. fold ps. simpl.
    rewrite Hleaf. fold residual. fold base.
    rewrite bool_decide_eq_false_2; [done|].
    by intros ?%fmap_nil_inv.
  - intros Hleaf Hres. rewrite createGetIdForRoute_unfold. fold ps. simpl.
    rewrite Hleaf. fold residual. by rewrite Hres.
  - intros Hinner. rewrite createGetIdForRoute_unfold. fold ps. simpl.
    by destruct (children route) as [[|]|].
  - intros Hleaf Hdyn. rewrite createGetIdForRoute_unfold.
    unfold residualKeys. rewrite includeOf_from, Hdyn, Hleaf. reflexivity.
Qed.

Lemma getId_residual_params_witness :
  createGetIdForRoute routeA (withParams [("q", PStr "abc")]) = "./A.js?q=abc".
Proof.
  apply (getId_residual_params routeA None); reflexivity.
Defined.

(** C6: for a route without dynamic segments and a call without residual
    parameters the generated function returns the empty string, which is
    falsy. *)
Lemma getId_empty_for_static_route :
  createGetIdForRoute routeA None = ""
  ∧ createGetIdForRoute routeA (withParams []) = ""
  ∧ createGetIdForRoute routeA (withParams [("screen", PStr "x")]) = "".
Proof. repeat split; reflexivity. Qed.

(** ** The component adapter: properties *)

Section AdapterProperties.
Variables (import_mode NODE_ENV : string).

Local Abbreviation adapt := (getQualifiedRouteComponent import_mode NODE_ENV).

Lemma store_wf_empty : store_wf emptyStore.
Proof. split; simpl; intros *; by rewrite lookup_empty. Qed.

(** After a call the route's entry holds what the call returned. *)
Lemma adapt_cached value st :
  qualifiedStore (adapt value st).2 !! ref value = Some (adapt value st).1.
Proof.
  unfold getQualifiedRouteComponent.
  destruct (qualifiedStore st !! ref value) eqn:Hget; simpl; [done|].
  apply lookup_insert_eq.
Qed.

(** A call reads its answer off the store when the route has an entry,
    and then leaves the store alone. *)
Lemma adapt_hit value st c :
  qualifiedStore st !! ref value = Some c → adapt value st = (c, st).
Proof. intros H. unfold getQualifiedRouteComponent. by rewrite H. Qed.

(** A call does not touch the entries of other routes. *)
Lemma adapt_other value st k :
  k ≠ ref value →
  qualifiedStore (adapt value st).2 !! k = qualifiedStore st !! k.
Proof.
  intros Hk. unfold getQualifiedRouteComponent.
  destruct (qualifiedStore st !! ref value); simpl; [done|].
  by apply lookup_insert_ne.
Qed.

Lemma adapt_wf value st : store_wf st → store_wf (adapt value st).2.
Proof.
  intros [Hlt Hinj]. unfold getQualifiedRouteComponent.
  destruct (qualifiedStore st !! ref value) eqn:Hget; simpl; [done|].
  split; simpl.
  - intros k c. rewrite lookup_insert. case_decide.
    + intros [= <-]. simpl. lia.
    + intros Hc%Hlt. lia.
  - intros k1 k2 c1 c2. rewrite !lookup_insert.
    repeat case_decide; subst; try done.
    + intros [= <-] Hc2%Hlt. simpl. lia.
    + intros Hc1%Hlt [= <-]. simpl. lia.
    + apply Hinj.
Qed.

(** In a store that is well formed, the components of two routes are two
    objects. *)
Lemma adapt_fresh value st k c :
  store_wf st → k ≠ ref value → qualifiedStore st !! k = Some c →
  qid (adapt value st).1 ≠ qid c.
Proof.
  intros [Hlt Hinj] Hk Hc. unfold getQualifiedRouteComponent.
  destruct (qualifiedStore st !! ref value) as [c'|] eqn:Hget; simpl.
  - intros Heq. apply Hk. symmetry. by eapply Hinj.
  - apply Hlt in Hc. lia.
Qed.

(** C7: the adapter is memoized by RouteNode reference.  A second call
    with the same reference returns the component of the first and leaves
    the store as it is; a call with another reference, whatever the fields
    of that node are, returns a component that is a different object, and
    the first component stays the one returned for the first
    reference. *)
Theorem adapter_memoized_by_reference st value other :
  store_wf st →
  let first := adapt value st in
  let second := adapt value first.2 in
  let third := adapt other first.2 in
  second.1 = first.1 ∧ second.2 = first.2
  ∧ (ref other ≠ ref value →
     qid third.1 ≠ qid first.1 ∧ (adapt value third.2).1 = first.1).
Proof.
  intros Hwf first second third.
  pose proof (adapt_cached value st) as Hcached. fold first in Hcached.
  assert (second = (first.1, first.2)) as Hsecond
    by by apply adapt_hit.
  split; [by rewrite Hsecond|]. split; [by rewrite Hsecond|].
  intros Hne. split.
  - apply (adapt_fresh other first.2 (ref value)); [|done..].
    by apply adapt_wf.
  - erewrite adapt_hit; [done|].
    unfold third. by rewrite adapt_other.
Qed.

(** ** The screen descriptor builder: properties *)

(** C8: for a generated route the options object has [tabBarButton], a
    function that answers [null], and [drawerItemStyle], an object with
    height 0 and display [none], whatever the module's static options and
    the override options hold; every other field is the override's when
    the override has it and the static one otherwise. *)
Theorem generated_route_chrome_hidden routeNode props args :
  generated routeNode = true →
  let output :=
    screen_options (routeToScreen import_mode NODE_ENV routeNode props) args in
  let staticResult :=
    callIfFunction (getNavOptions (exportsOf (loadRoute routeNode))) args in
  let dynamicResult :=
    callIfFunction
      (from_option id JUndefined (from_option id ∅ props !! "options")) args in
  (∃ f, output !! "tabBarButton" = Some (JFun f) ∧ ∀ a, f a = JNull)
  ∧ (∃ style, output !! "drawerItemStyle" = Some (JObj style)
              ∧ style !! "height" = Some (JNum 0)
              ∧ style !! "display" = Some (JStr "none"))
  ∧ (∀ key, key ≠ "tabBarButton" → key ≠ "drawerItemStyle" →
            output !! key
            = match spread dynamicResult !! key with
              | Some v => Some v
              | None => spread staticResult !! key
              end).
Proof.
  intros Hgen output staticResult dynamicResult.
  unfold output, routeToScreen, screenOptions. simpl. rewrite Hgen.
  fold staticResult. fold dynamicResult. repeat split.
  - exists (λ _, JNull). split; [|done].
    rewrite lookup_insert_ne by done. apply lookup_insert_eq.
  - eexists. split; [apply lookup_insert_eq|]. split; reflexivity.
  - intros key Hk1 Hk2. rewrite !lookup_insert_ne by done.
    rewrite lookup_union.
    by destruct (spread dynamicResult !! key), (spread staticResult !! key).
Qed.
End AdapterProperties.

Lemma adapter_memoized_by_reference_witness :
  let first := getQualifiedRouteComponent "lazy" "production" routeA emptyStore in
  let twin := getQualifiedRouteComponent "lazy" "production" routeA_twin first.2 in
  qid twin.1 ≠ qid first.1
  ∧ (getQualifiedRouteComponent "lazy" "production" routeA twin.2).1 = first.1.
Proof.
  apply (adapter_memoized_by_reference "lazy" "production" emptyStore
           routeA routeA_twin).
  - apply store_wf_empty.
  - discriminate.
Defined.

Lemma generated_route_chrome_hidden_witness :
  ∃ f, screen_options (routeToScreen "lazy" "production" sitemapRoute
                         (Some showingProps)) someArgs !! "tabBarButton"
       = Some (JFun f) ∧ ∀ a, f a = JNull.
Proof.
  apply (generated_route_chrome_hidden "lazy" "production" sitemapRoute
           (Some showingProps) someArgs).
  reflexivity.
Defined.

(** ** Further properties of the order reconciler *)

Lemma orderCallback_no_match_warning children e fr :
  find (named e) (entries fr) = None →
  orderCallback children e fr
  = Normal None (mkFrame (entries fr)
                         (console fr ++ [warningFor children e (entries fr)])).
Proof.
  intros Hfind. unfold orderCallback, mbind, M_bind, getEntries, warningFor.
  simpl. case_bool_decide as Hlen; [done|].
  destruct (findIndex_find (named e) (entries fr))
    as [[Hi _]|(i & m & _ & _ & Hm & _)]; [|congruence].
  unfold named in Hi. by rewrite Hi.
Qed.

(** The console after [order.map], normal or not. *)
Lemma mapM_console children order fr :
  console (frameOf (mapM (orderCallback children) order fr))
  = console fr ++ diagnostics children order (entries fr).
Proof.
  revert fr. induction order as [|e order IH]; intros fr; simpl.
  { by rewrite (right_id_L [] (++)). }
  unfold mbind, M_bind.
  destruct (find (named e) (entries fr)) as [m|] eqn:Hfind.
  - rewrite (orderCallback_match _ _ _ _ Hfind). unfold stringRedirect. simpl.
    destruct (truthy (redirect e)); [destruct (typeof_string (redirect e))|];
      simpl.
    + by rewrite (right_id_L [] (++)).
    + specialize (IH (mkFrame (dropFirst (named e) (entries fr)) (console fr))).
      simpl in IH. by destruct (mapM _ order _).
    + specialize (IH (mkFrame (dropFirst (named e) (entries fr)) (console fr))).
      simpl in IH. by destruct (mapM _ order _).
  - rewrite (orderCallback_no_match_warning _ _ _ Hfind).
    specialize (IH (mkFrame (entries fr)
                      (console fr ++ [warningFor children e (entries fr)]))).
    simpl in IH. rewrite <- (assoc_L (++)) in IH.
    by destruct (mapM _ order _).
Qed.

Lemma dropFirst_length {A} (p : A → bool) l m :
  find p l = Some m → length l = S (length (dropFirst p l)).
Proof. intros H. by rewrite (Permutation_length (dropFirst_perm _ _ _ H)). Qed.

Lemma reconcile_app pre post es :
  reconcile (pre ++ post) es =
    match reconcile pre es with
    | Return (out1, rest1) =>
        match reconcile post rest1 with
        | Return (out2, rest2) => Return (out1 ++ out2, rest2)
        | Throw err => Throw err
        end
    | Throw err => Throw err
    end.
Proof.
  revert es. induction pre as [|e pre IH]; intros es; simpl.
  - by destruct (reconcile post es) as [[? ?]|].
  - destruct (find (named e) es) as [m|]; [|apply IH].
    destruct (truthy (redirect e)).
    + destruct (typeof_string (redirect e)); [done | apply IH].
    + rewrite IH. destruct (reconcile pre _) as [[out1 rest1]|]; [|done].
      by destruct (reconcile post rest1) as [[out2 rest2]|].
Qed.

Lemma diagnostics_app children pre post es :
  diagnostics children (pre ++ post) es =
    diagnostics children pre es
    ++ match reconcile pre es with
       | Return (_, rest1) => diagnostics children post rest1
       | Throw _ => []
       end.
Proof.
  revert es. induction pre as [|e pre IH]; intros es; simpl; [done|].
  unfold stringRedirect.
  destruct (find (named e) es) as [m|]; [|by rewrite IH].
  destruct (truthy (redirect e)); simpl.
  - destruct (typeof_string (redirect e)); [done | apply IH].
  - rewrite IH. by destruct (reconcile pre _) as [[out1 rest1]|].
Qed.

Lemma reconcile_empty order : reconcile order [] = Return ([], []).
Proof. induction order as [|e order IH]; [done | exact IH]. Qed.

Lemma diagnostics_empty children order :
  diagnostics children order [] = TooManyScreens ∘ entry_name <$> order.
Proof.
  induction order as [|e order IH]; [done|]. simpl. by rewrite IH.
Qed.

Lemma diagnostics_account children order es out rest :
  reconcile order es = Return (out, rest) →
  length (diagnostics children order es) + length es
  = length order + length rest.
Proof.
  revert es out. induction order as [|e order IH]; intros es out; simpl.
  - by intros [= _ <-].
  - unfold stringRedirect.
    destruct (find (named e) es) as [m|] eqn:Hfind.
    + rewrite (dropFirst_length _ _ _ Hfind).
      destruct (truthy (redirect e)); simpl.
      * destruct (typeof_string (redirect e)); [done|].
        intros H%IH. lia.
      * destruct (reconcile order _) as [[out' rest']|] eqn:Hrec; [|done].
        intros [= _ <-]. apply IH in Hrec. lia.
    + intros H%IH. simpl. lia.
Qed.

Lemma diagnostics_distinct children order es :
  NoDup (entry_name <$> order) →
  (∀ e, e ∈ order →
        is_Some (find (named e) children)
        ∧ find (named e) es = find (named e) children) →
  diagnostics children order es = [].
Proof.
  revert es. induction order as [|e order IH]; intros es Hnd Hall; simpl;
    [done|].
  apply NoDup_cons in Hnd as [Hnotin Hnd].
  destruct (Hall e) as [[m Hm] He]; [by left|].
  rewrite He, Hm. destruct (stringRedirect e); [done|].
  apply IH; [done|]. intros e' He'.
  destruct (Hall e') as [Hsome Heq]; [by right|]. split; [done|].
  rewrite <- Heq. apply find_dropFirst. intros x.
  apply named_distinct. intros Heqn. apply Hnotin.
  rewrite Heqn. by apply list_elem_of_fmap_2.
Qed.

(** A reconciliation that fails has an entry with a non-empty string
    redirect that found its node. *)
Lemma reconcile_Throw_matched order es err :
  reconcile order es = Throw err →
  ∃ pre e post m,
    order = pre ++ e :: post ∧ stringRedirect e = true
    ∧ find (named e) (remainingAfter pre es) = Some m.
Proof.
  revert es. induction order as [|e order IH]; intros es; simpl; [done|].
  assert (∀ es', es' = dropFirst (named e) es →
            reconcile order es' = Throw err →
            ∃ pre e' post m,
              e :: order = pre ++ e' :: post ∧ stringRedirect e' = true
              ∧ find (named e') (remainingAfter pre es) = Some m) as IH'.
  { intros es' -> (pre & e' & post & m & -> & Hs & Hm)%IH.
    by exists (e :: pre), e', post, m. }
  destruct (find (named e) es) as [m|] eqn:Hfind.
  - destruct (truthy (redirect e)) eqn:Ht.
    + destruct (typeof_string (redirect e)) eqn:Hs; [|by apply IH'].
      intros _. exists [], e, order, m. unfold stringRedirect.
      by rewrite Ht, Hs.
    + destruct (reconcile order _) as [[out' rest']|err'] eqn:Hrec; [done|].
      intros [= ->]. by eapply IH'.
  - apply IH'. by rewrite dropFirst_None.
Qed.

(** Every emitted descriptor pairs a node of the working copy with the
    props of an entry that bears the node's name. *)
Lemma reconcile_emitted order es out rest c :
  reconcile order es = Return (out, rest) → c ∈ out →
  ∃ e, e ∈ order ∧ Child.route c ∈ es
       ∧ route (Child.route c) = entry_name e
       ∧ Child.props c = entryProps e.
Proof.
  revert es out. induction order as [|e order IH]; intros es out; simpl.
  - intros [= <- _] Hc. by apply elem_of_nil in Hc.
  - assert (∀ es' out', reconcile order es' = Return (out', rest) →
              (∀ x, x ∈ es' → x ∈ es) → c ∈ out' →
              ∃ e', e' ∈ e :: order ∧ Child.route c ∈ es
                    ∧ route (Child.route c) = entry_name e'
                    ∧ Child.props c = entryProps e') as IH'.
    { intros es' out' Hrec Hsub Hc.
      destruct (IH _ _ Hrec Hc) as (e' & He' & Hin & Hn & Hp).
      exists e'. split; [by right|]. split; [by apply Hsub | done]. }
    assert (∀ x, x ∈ dropFirst (named e) es → x ∈ es) as Hsub.
    { apply sublist_subseteq, dropFirst_sublist. }
    destruct (find (named e) es) as [m|] eqn:Hfind;
      [|intros Hrec Hc; by apply (IH' es out)].
    destruct (truthy (redirect e)).
    + destruct (typeof_string (redirect e)); [done|].
      intros Hrec Hc. by apply (IH' _ out Hrec).
    + destruct (reconcile order _) as [[out' rest']|] eqn:Hrec; [|done].
      intros [= <- <-] [->|Hc]%elem_of_cons; [|by apply (IH' _ out' Hrec)].
      apply find_Some_elem in Hfind as [Hin Hn].
      exists e. split; [by left|]. split; [done|]. split; [|done].
      by apply String.eqb_eq in Hn.
Qed.

Section ReconcilerExtras.
Variable sortRoutesWithInitial : option string → RouteNode → RouteNode → Z.
Variables (import_mode NODE_ENV : string).

Local Abbreviation getSorted := (getSortedChildren sortRoutesWithInitial).
Local Abbreviation hook :=
  (useSortedScreens sortRoutesWithInitial import_mode NODE_ENV).

(** The warnings of a call are the diagnostics of its ordering. *)
Lemma getSortedChildren_warnings children order initialRouteName :
  warnings (getSorted children order initialRouteName)
  = diagnostics children (orderList order) children.
Proof.
  destruct order as [[|e order]|]; [done| |done].
  unfold getSortedChildren, orderList. simpl from_option.
  pose proof (mapM_console children (e :: order) (mkFrame children [])) as H.
  by destruct (mapM _ _ _).
Qed.

(** Without an ordering (absent or empty) the call returns the caller's
    array as it stands after the call, element by element with empty props;
    that array is a rearrangement of what it was, and nothing is written to
    the console. *)
Theorem unordered_call_returns_callers_array children order initialRouteName :
  orderList order = [] →
  let call := getSorted children order initialRouteName in
  completion call = Return (withEmptyProps <$> children_after call)
  ∧ children_after call ≡ₚ children
  ∧ warnings call = [].
Proof.
  intros Horder call.
  assert (call = mkCall
            (Return (withEmptyProps
                       <$> sort (sortRoutesWithInitial initialRouteName) children))
            (sort (sortRoutesWithInitial initialRouteName) children) []) as ->.
  { unfold call. by destruct order as [[|e order]|]. }
  simpl. split; [done|]. split; [apply sort_perm | done].
Qed.

(** In a call that returns, every order entry is accounted for once: it
    took a node out of the working copy or it wrote one warning; and every
    child is accounted for once: it is in the output or an entry with a
    truthy redirect consumed it. *)
Theorem returning_call_accounts children order initialRouteName out :
  let call := getSorted children order initialRouteName in
  completion call = Return out →
  length (warnings call) + length children
  = length (orderList order) + length (remainingAfter (orderList order) children)
  ∧ length out + length (redirected (orderList order) children)
    = length children.
Proof.
  intros call Hout. split.
  - unfold call in *. rewrite getSortedChildren_warnings.
    rewrite getSortedChildren_completion in Hout.
    destruct (reconcile _ _) as [[ordered rest]|] eqn:Hrec; [|done].
    rewrite (diagnostics_account _ _ _ _ _ Hrec).
    by rewrite (reconcile_rest _ _ _ _ Hrec).
  - apply getSortedChildren_returns_perm in Hout.
    apply Permutation_length in Hout. unfold routesOf in Hout.
    by rewrite length_app, length_fmap in Hout.
Qed.

(** An ordering whose entries name pairwise distinct existing children
    writes no warning, whether the call returns or throws. *)
Theorem matching_order_is_silent children order initialRouteName :
  NoDup (entry_name <$> orderList order) →
  (∀ e, e ∈ orderList order → ∃ c, c ∈ children ∧ route c = entry_name e) →
  warnings (getSorted children order initialRouteName) = [].
Proof.
  intros Hnd Hex. rewrite getSortedChildren_warnings.
  apply diagnostics_distinct; [done|]. intros e (c & Hc & Hn)%Hex.
  split; [|done]. apply (find_is_Some _ _ c); [done|].
  by apply String.eqb_eq.
Qed.

(** Once the entries of [pre] have used up every child, the entries that
    follow change nothing but the console: the completion is that of [pre]
    alone, also when a later entry carries a string redirect, and when
    [pre] returns each later entry adds one "too many screens" warning. *)
Theorem entries_after_children_used_up children pre post initialRouteName :
  pre ≠ [] →
  remainingAfter pre children = [] →
  let short := getSorted children (Some pre) initialRouteName in
  let long := getSorted children (Some (pre ++ post)) initialRouteName in
  completion long = completion short
  ∧ warnings long
    = warnings short
      ++ match completion short with
         | Return _ => TooManyScreens ∘ entry_name <$> post
         | Throw _ => []
         end.
Proof.
  intros Hpre Hempty short long. unfold short, long.
  rewrite !getSortedChildren_completion, !getSortedChildren_warnings.
  unfold orderList. simpl from_option.
  rewrite reconcile_app, diagnostics_app.
  destruct (reconcile pre children) as [[out1 rest1]|err] eqn:Hrec.
  - apply reconcile_rest in Hrec as Hrest. rewrite Hempty in Hrest. subst rest1.
    rewrite reconcile_empty, diagnostics_empty.
    by rewrite (right_id_L [] (++)).
  - by rewrite (right_id_L [] (++)).
Qed.

(** A call throws exactly when some entry with a non-empty string redirect
    finds a node of its name in the working copy at its turn, and then the
    error is the redirect error. *)
Theorem getSortedChildren_throws_iff children order initialRouteName err :
  completion (getSorted children order initialRouteName) = Throw err
  ↔ err = redirectError
    ∧ ∃ pre e post m,
        orderList order = pre ++ e :: post ∧ stringRedirect e = true
        ∧ find (named e) (remainingAfter pre children) = Some m.
Proof.
  rewrite getSortedChildren_completion. split.
  - destruct (reconcile _ _) as [[ordered rest]|err'] eqn:Hrec; [done|].
    intros [= ->]. split; [by apply reconcile_Throw in Hrec as [? _]|].
    by eapply reconcile_Throw_matched.
  - intros (-> & pre & e & post & m & -> & Hs & Hm).
    by rewrite (reconcile_string_redirect _ _ _ _ m).
Qed.

(** *** The hook *)

(** Where there is no node, or the node has no [children] array or an empty
    one, the hook returns no screen for any ordering: nothing is thrown, even
    for a string redirect, and nothing is written. *)
Theorem hook_without_children node order :
  node ≫= children = None ∨ node ≫= children = Some [] →
  useSortedScreens sortRoutesWithInitial import_mode NODE_ENV node order
  = mkRendered (Return []) (node ≫= children) [].
Proof.
  unfold useSortedScreens. destruct node as [n|]; simpl; [|done].
  by intros [->| ->].
Qed.

(** On a node with children and an ordering without truthy redirect the
    hook returns one screen per child: the screen names are a rearrangement
    of the children's names and each screen's key is its name. *)
Theorem hook_one_screen_per_child n c cs order :
  children n = Some (c :: cs) →
  Forall (λ e, truthy (redirect e) = false) (orderList order) →
  ∃ screens,
    rendered (hook (Some n) order) = Return screens
    ∧ screen_name <$> screens ≡ₚ route <$> (c :: cs)
    ∧ Forall (λ s, screen_key s = screen_name s) screens.
Proof.
  intros Hch Hno. unfold useSortedScreens. rewrite Hch. simpl.
  destruct (completion _) as [out|err] eqn:Hout.
  - eexists. split; [done|]. split.
    + apply getSortedChildren_returns_perm in Hout.
      rewrite (redirected_nil _ _ Hno), (right_id_L [] (++)) in Hout.
      etrans; [|exact (fmap_Permutation route _ _ Hout)].
      clear. induction out as [|d out IH]; [done|]. by constructor.
    + clear. induction out as [|d out IH]; by constructor.
  - rewrite getSortedChildren_completion in Hout.
    destruct (reconcile _ _) as [[ordered rest]|err'] eqn:Hrec; [done|].
    apply reconcile_Throw in Hrec as (_ & e & He & Hs).
    rewrite Forall_forall in Hno. unfold stringRedirect in Hs.
    by rewrite (Hno e He) in Hs.
Qed.

(** Every screen the hook returns is the screen of a child of the node,
    and of one of two kinds.  A child no entry took has the generated
    identifier function, no further props and options built from no
    override.  A child an entry took has the entry's [getId] as it is, also
    when that is [undefined], the entry's [initialParams] and [listeners] as
    further props, and options built from the entry's [options]. *)
Theorem hook_screen_origin n c cs order screens s :
  children n = Some (c :: cs) →
  rendered (hook (Some n) order) = Return screens →
  s ∈ screens →
  ∃ r, r ∈ c :: cs ∧ screen_name s = route r
       ∧ ((screen_getId s = GeneratedGetId (createGetIdForRoute r)
           ∧ screen_rest s = ∅
           ∧ screen_options s = screenOptions r JUndefined)
          ∨ (∃ e, e ∈ orderList order ∧ entry_name e = route r
                  ∧ screen_getId s = GivenGetId (getId e)
                  ∧ screen_rest s = obj [("initialParams", initialParams e);
                                         ("listeners", listeners e)]
                  ∧ screen_options s = screenOptions r (options e))).
Proof.
  intros Hch. unfold useSortedScreens. rewrite Hch. simpl.
  rewrite getSortedChildren_completion.
  destruct (reconcile _ _) as [[ordered rest]|] eqn:Hrec; [|done].
  intros [= <-] (d & -> & Hd)%list_elem_of_fmap.
  apply elem_of_app in Hd as [Hd|Hd].
  - destruct (reconcile_emitted _ _ _ _ _ Hrec Hd) as (e & He & Hin & Hn & Hp).
    exists (Child.route d). split; [done|]. split; [done|]. right.
    exists e. split; [done|]. split; [done|].
    unfold routeToScreen. simpl. rewrite Hp. by vm_compute.
  - apply list_elem_of_fmap in Hd as (r & -> & Hr).
    exists r. split; [|split; [done|]].
    + rewrite sort_perm in Hr. apply reconcile_rest in Hrec as ->.
      clear -Hr. revert Hr. generalize (c :: cs).
      induction (orderList order) as [|e l IH]; intros es; [done|].
      intros Hr%IH. by eapply sublist_subseteq, Hr; apply dropFirst_sublist.
    + left. by vm_compute.
Qed.
End ReconcilerExtras.

(** ** Further properties of the identifier generator *)

Lemma append_cons c s t : String c s +:+ t = String c (s +:+ t).
Proof. reflexivity. Qed.

Lemma append_nil_r s : s +:+ "" = s.
Proof. induction s as [|c s IH]; [done|]. by rewrite append_cons, IH. Qed.

Lemma append_length s t :
  String.length (s +:+ t) = String.length s + String.length t.
Proof.
  induction s as [|c s IH]; [done|]. rewrite append_cons. simpl. by rewrite IH.
Qed.

Lemma append_inj_r s1 s2 t : s1 +:+ t = s2 +:+ t → s1 = s2.
Proof.
  revert s2. induction s1 as [|c s1 IH]; intros [|c2 s2] H.
  - done.
  - apply (f_equal String.length) in H.
    rewrite !append_length in H. simpl in H. lia.
  - apply (f_equal String.length) in H.
    rewrite !append_length in H. simpl in H. lia.
  - rewrite !append_cons in H. injection H as -> H. f_equal. by apply IH.
Qed.

Lemma append_nonempty_l s t : s ≠ "" → s +:+ t ≠ "".
Proof. by destruct s. Qed.

Lemma append_nonempty_r s t : t ≠ "" → s +:+ t ≠ "".
Proof. destruct s; [done | discriminate]. Qed.

Lemma join_nonempty sep x l : x ≠ "" → join sep (x :: l) ≠ "".
Proof.
  intros Hx. unfold join. simpl. destruct l; [done|].
  by apply append_nonempty_l.
Qed.

(** A joined list as a function of one of its elements. *)
Lemma join_middle sep l1 l2 :
  ∃ pfx q, ∀ x, join sep (l1 ++ x :: l2) = foldr String.append (x +:+ q) pfx.
Proof.
  induction l1 as [|a l1 (pfx & q & IH)].
  - exists [], (match l2 with [] => "" | _ => sep +:+ join sep l2 end).
    intros x. unfold join. simpl. destruct l2; [by rewrite append_nil_r | done].
  - exists (a :: sep :: pfx), q. intros x. simpl. rewrite <- IH.
    unfold join. simpl. by destruct l1.
Qed.

Lemma foldr_append_inj pfx s1 s2 :
  foldr String.append s1 pfx = foldr String.append s2 pfx → s1 = s2.
Proof.
  induction pfx as [|a pfx IH]; simpl; [done|].
  intros H%(inj (String.append a)). by apply IH.
Qed.

Lemma filter_ne_absent (k : string) (keys : list string) :
  k ∉ keys → filter (λ x, x ≠ k) keys = keys.
Proof.
  induction keys as [|x keys IH]; [done|].
  intros [Hne Hk]%not_elem_of_cons.
  rewrite filter_cons_True by congruence. by rewrite IH.
Qed.

Lemma Set_new_NoDup (keys : list string) : NoDup keys → Set_new keys = keys.
Proof.
  induction 1 as [|k keys Hk _ IH]; simpl; [done|].
  by rewrite IH, filter_ne_absent.
Qed.

Lemma Set_new_filter (P : string → Prop) `{!∀ x, Decision (P x)} keys :
  Set_new (filter P keys) = filter P (Set_new keys).
Proof.
  induction keys as [|k keys IH]; [done|]. simpl.
  destruct (decide (P k)) as [Hk|Hk].
  - rewrite !filter_cons_True by done. simpl. rewrite IH. f_equal.
    rewrite !list_filter_filter. apply list_filter_iff.
    intros x. split; intros [? ?]; by split.
  - rewrite !filter_cons_False by done. rewrite IH.
    rewrite list_filter_filter. apply list_filter_iff.
    intros x. split; [|by intros [? _]].
    intros Hx. split; [done|]. by intros ->.
Qed.

Lemma param_get_withoutReserved ps key :
  reservedKey key = false → param_get (withoutReserved ps) key = param_get ps key.
Proof.
  intros Hkey. unfold withoutReserved, Params in *.
  induction ps as [|[k v] ps IH]; [done|].
  rewrite filter_cons.
  destruct (decide (reservedKey (k, v).1 = false)) as [Hk|Hk]; cbn [param_get].
  - destruct (String.eqb k key); [done | exact IH].
  - simpl in Hk. destruct (String.eqb_spec k key) as [->|]; [congruence | exact IH].
Qed.

Lemma Object_keys_withoutReserved ps :
  Object_keys (withoutReserved ps)
  = filter (λ key, reservedKey key = false) (Object_keys ps).
Proof.
  unfold withoutReserved, Object_keys, Params in *.
  induction ps as [|[k v] ps IH]; [done|].
  rewrite fmap_cons, !filter_cons. cbn [fst].
  destruct (decide (reservedKey k = false)); [|exact IH].
  rewrite fmap_cons. by f_equal.
Qed.

(** The value of a key other than [k] does not see the binding of [k]; the
    value of [k] is its binding when no earlier binding bears the key. *)
Lemma param_get_middle_ne l1 l2 k v key :
  key ≠ k → param_get (l1 ++ (k, v) :: l2) key = param_get (l1 ++ l2) key.
Proof.
  intros Hne. induction l1 as [|[k' v'] l1 IH]; simpl.
  - by destruct (String.eqb_spec k key) as [->|].
  - by rewrite IH.
Qed.

Lemma param_get_middle_eq l1 l2 k v :
  k ∉ Object_keys l1 → param_get (l1 ++ (k, v) :: l2) k = Some v.
Proof.
  unfold Object_keys. induction l1 as [|[k' v'] l1 IH]; simpl.
  - by rewrite String.eqb_refl.
  - rewrite ?fmap_cons. intros [Hne Hk]%not_elem_of_cons. simpl in Hne.
    destruct (String.eqb_spec k' k) as [->|_]; [done | by apply IH].
Qed.

(** The string of a segment depends on the parameter of its name only. *)
Lemma segmentId_ext ps1 ps2 d :
  param_get ps1 (name d) = param_get ps2 (name d) →
  segmentId ps1 d = segmentId ps2 d.
Proof. unfold segmentId. by intros ->. Qed.

Lemma include_value_named route d :
  d ∈ Map_values (includeOf route) → name d ∈ name <$> dynamicOf route.
Proof.
  intros Hd. apply include_names. by apply list_elem_of_fmap_2.
Qed.

Lemma base_ext route ps1 ps2 :
  (∀ key, key ∈ name <$> dynamicOf route →
          param_get ps1 key = param_get ps2 key) →
  segmentId ps1 <$> Map_values (includeOf route)
  = segmentId ps2 <$> Map_values (includeOf route).
Proof.
  intros Hagree. apply list_fmap_ext. intros i d Hd.
  apply segmentId_ext, Hagree, include_value_named.
  by eapply list_elem_of_lookup_2.
Qed.

Lemma paramsOf_withParams ps : paramsOf (withParams ps) = ps.
Proof. done. Qed.

Lemma segmentId_nonempty ps d :
  isArray (param_get ps (name d)) = false → segmentId ps d ≠ "".
Proof.
  unfold segmentId.
  destruct (param_get ps (name d)) as [[[|c s]|l]|]; simpl; try done;
    intros _; destruct (deep d); by apply append_nonempty_l.
Qed.

(** The [include] map holds one segment per name that a dynamic segment of
    the route bears, and for each name the segment declared last with it. *)
Theorem include_keeps_last_segment route :
  NoDup (name <$> Map_values (includeOf route))
  ∧ (∀ x, x ∈ name <$> Map_values (includeOf route)
          ↔ x ∈ name <$> dynamicOf route)
  ∧ (∀ d, d ∈ Map_values (includeOf route) →
          ∃ l1 l2, dynamicOf route = l1 ++ d :: l2 ∧ name d ∉ name <$> l2).
Proof.
  split; [|split; [apply include_names|]].
  - rewrite includeOf_from.
    rewrite (named_values_keys _ (includeFrom_named [] _ (Forall_nil_2 _))).
    apply includeFrom_NoDup, NoDup_nil_2.
  - rewrite includeOf_from. unfold Map_values.
    intros d ([k v] & -> & Hin)%list_elem_of_fmap. simpl.
    apply includeFrom_last in Hin as [[Hin _]|(l1 & l2 & Hsegs & Hn & Hk)];
      [by apply elem_of_nil in Hin | | apply NoDup_nil_2].
    exists l1, l2. by rewrite Hn.
Qed.

(** On a route that is not a leaf the identifier depends on the parameters
    of the dynamic segments only: two parameter bags that agree on them give
    the same identifier. *)
Theorem inner_route_id_ignores_other_params route ctx1 ctx2 :
  children route ≠ Some [] →
  (∀ key, key ∈ name <$> dynamicOf route →
          param_get (paramsOf ctx1) key = param_get (paramsOf ctx2) key) →
  createGetIdForRoute route ctx1 = createGetIdForRoute route ctx2.
Proof.
  intros Hinner Hagree. rewrite !createGetIdForRoute_unfold. simpl.
  rewrite (base_ext route _ _ Hagree).
  by destruct (children route) as [[|]|].
Qed.

(** The keys [screen] and [params] of the parameter bag never reach the
    identifier of a route none of whose dynamic segments bears one of these
    names: the bag without them gives the same identifier. *)
Theorem reserved_keys_do_not_reach_id route ps :
  "screen" ∉ name <$> dynamicOf route →
  "params" ∉ name <$> dynamicOf route →
  createGetIdForRoute route (withParams (withoutReserved ps))
  = createGetIdForRoute route (withParams ps).
Proof.
  intros Hscreen Hparams. rewrite !createGetIdForRoute_unfold. cbv zeta.
  rewrite !paramsOf_withParams.
  assert (segmentId (withoutReserved ps) <$> Map_values (includeOf route)
          = segmentId ps <$> Map_values (includeOf route)) as ->.
  { apply base_ext. intros key Hkey. apply param_get_withoutReserved.
    apply reservedKey_false. split; by intros ->. }
  assert (residualKeys route (withoutReserved ps) = residualKeys route ps)
    as ->.
  { unfold residualKeys.
    rewrite Object_keys_withoutReserved, Set_new_filter.
    apply list_filter_filter_l. intros key (_ & ? & ?).
    by apply reservedKey_false. }
  assert (serialized (withoutReserved ps) <$> residualKeys route ps
          = serialized ps <$> residualKeys route ps) as ->; [|done].
  apply list_fmap_ext. intros i key Hkey.
  apply list_elem_of_lookup_2, list_elem_of_filter in Hkey as [(_ & ? & ?) _].
  unfold serialized. rewrite param_get_withoutReserved; [done|].
  by apply reservedKey_false.
Qed.

(** The identifier is not empty when residual parameters are appended, and
    when the route has a dynamic segment and no parameter of a dynamic
    segment is an array. *)
Theorem id_nonempty route ctx :
  let ps := paramsOf ctx in
  (children route = Some [] ∧ residualKeys route ps ≠ [])
  ∨ (dynamicOf route ≠ []
     ∧ ∀ d, d ∈ dynamicOf route → isArray (param_get ps (name d)) = false) →
  createGetIdForRoute route ctx ≠ "".
Proof.
  intros ps H. rewrite createGetIdForRoute_unfold. fold ps. simpl.
  destruct H as [[Hleaf Hres]|[Hdyn Harr]].
  - rewrite Hleaf, bool_decide_eq_false_2 by by intros ?%fmap_nil_inv.
    by apply append_nonempty_r, append_nonempty_l.
  - assert (join "/" (segmentId ps <$> Map_values (includeOf route)) ≠ "")
      as Hbase.
    { destruct (Map_values (includeOf route)) as [|d0 segs] eqn:Hvals.
      - destruct (dynamicOf route) as [|d ds] eqn:Hds; [done|].
        assert (name d ∈ name <$> Map_values (includeOf route)) as Hin.
        { apply include_names. rewrite Hds, fmap_cons. by left. }
        rewrite Hvals in Hin. by apply elem_of_nil in Hin.
      - rewrite fmap_cons. apply join_nonempty, segmentId_nonempty.
        assert (name d0 ∈ name <$> dynamicOf route) as Hin.
        { apply include_value_named. rewrite Hvals. by left. }
        apply list_elem_of_fmap in Hin as (d & Hn & Hd).
        rewrite Hn. by apply Harr. }
    case_bool_decide; [done|].
    by apply append_nonempty_r, append_nonempty_l.
Qed.

(** On a leaf route two parameter bags that differ in the value of one
    residual key alone, the values having different strings, get different
    identifiers. *)
Theorem residual_value_separates_ids route l1 l2 k v1 v2 :
  children route = Some [] →
  k ∉ name <$> dynamicOf route →
  reservedKey k = false →
  NoDup (Object_keys (l1 ++ (k, v1) :: l2)) →
  param_toString (Some v1) ≠ param_toString (Some v2) →
  createGetIdForRoute route (withParams (l1 ++ (k, v1) :: l2))
  ≠ createGetIdForRoute route (withParams (l1 ++ (k, v2) :: l2)).
Proof.
  intros Hleaf Hk Hres Hnd Hne.
  assert (Object_keys (l1 ++ (k, v2) :: l2) = Object_keys (l1 ++ (k, v1) :: l2))
    as Hkeys by (unfold Object_keys; by rewrite !fmap_app, !fmap_cons).
  unfold Object_keys in Hnd. rewrite fmap_app, fmap_cons in Hnd. simpl in Hnd.
  apply NoDup_app in Hnd as (Hnd1 & Hdisj & [Hk2 Hnd2]%NoDup_cons).
  assert (k ∉ l1.*1) as Hk1.
  { intros Hin. apply (Hdisj k Hin). by left. }
  set (P := λ key : string, (key ∉ name <$> dynamicOf route)
                             ∧ (key ≠ "screen") ∧ (key ≠ "params")).
  assert (∀ v, residualKeys route (l1 ++ (k, v) :: l2)
               = filter P l1.*1 ++ k :: filter P l2.*1) as Hresidual.
  { intros v. unfold residualKeys. rewrite Set_new_NoDup.
    - unfold Object_keys. rewrite fmap_app, fmap_cons, filter_app. simpl.
      rewrite filter_cons_True; [done|].
      split; [done | by apply reservedKey_false].
    - unfold Object_keys. rewrite fmap_app, fmap_cons. simpl.
      apply NoDup_app. split; [done|]. split; [done | by apply NoDup_cons]. }
  assert (∀ v key, key ≠ k →
            serialized (l1 ++ (k, v) :: l2) key = serialized (l1 ++ l2) key)
    as Hother.
  { intros v key Hkey. unfold serialized. by rewrite param_get_middle_ne. }
  assert (∀ v, serialized (l1 ++ (k, v) :: l2) <$> residualKeys route (l1 ++ (k, v) :: l2)
               = (serialized (l1 ++ l2) <$> filter P l1.*1)
                 ++ (k +:+ "=" +:+ param_toString (Some v))
                    :: (serialized (l1 ++ l2) <$> filter P l2.*1)) as Hser.
  { intros v. rewrite Hresidual, fmap_app, fmap_cons. f_equal; [|f_equal].
    - apply list_fmap_ext. intros i key Hkey. apply Hother.
      apply list_elem_of_lookup_2, list_elem_of_filter in Hkey as [_ Hin].
      by intros ->.
    - unfold serialized. by rewrite param_get_middle_eq.
    - apply list_fmap_ext. intros i key Hkey. apply Hother.
      apply list_elem_of_lookup_2, list_elem_of_filter in Hkey as [_ Hin].
      by intros ->. }
  rewrite !createGetIdForRoute_unfold. cbv zeta.
  rewrite !paramsOf_withParams, Hleaf, !Hser.
  rewrite (base_ext route (l1 ++ (k, v1) :: l2) (l1 ++ (k, v2) :: l2)).
  2:{ intros key Hkey. rewrite !param_get_middle_ne; [done|..];
        by intros ->. }
  rewrite !bool_decide_eq_false_2 by by destruct (_ <$> filter P l1.*1).
  intros Heq. apply (inj (String.append _)), (inj (String.append "?")) in Heq.
  destruct (join_middle "&" (serialized (l1 ++ l2) <$> filter P l1.*1)
              (serialized (l1 ++ l2) <$> filter P l2.*1)) as (pfx & q & Hjoin).
  rewrite !Hjoin in Heq. apply foldr_append_inj, append_inj_r in Heq.
  by apply (inj (String.append k)), (inj (String.append "=")) in Heq.
Qed.

(** ** Further properties of the adapter and of the screen options *)

Section AdapterExtras.
Variables (import_mode NODE_ENV : string).

Local Abbreviation adapt := (getQualifiedRouteComponent import_mode NODE_ENV).
Local Abbreviation adaptAll' := (adaptAll import_mode NODE_ENV).

(** [fromImport] substitutes the empty-route placeholder for the whole
    module exactly when the module has no truthy [ErrorBoundary], the build
    is not a production build and the default export is an object without
    keys. *)
Theorem fromImport_EmptyRoute_iff m :
  fromImport NODE_ENV m = EmptyRoute
  ↔ truthy (ErrorBoundary m) = false
    ∧ NODE_ENV ≠ "production"
    ∧ default m = JObj ∅.
Proof.
  unfold fromImport. split.
  - destruct (truthy (ErrorBoundary m)); [done|].
    destruct (String.eqb_spec NODE_ENV "production") as [->|Hne]; [done|].
    destruct (default m) as [| | | | |fields|]; simpl; try done.
    case_bool_decide as Hsize; [|done]. intros _.
    apply map_size_empty_iff in Hsize. by subst.
  - intros (-> & Hne & ->). apply String.eqb_neq in Hne. by rewrite Hne.
Qed.

Lemma adapt_kept value st k c :
  qualifiedStore st !! k = Some c →
  qualifiedStore (adapt value st).2 !! k = Some c.
Proof.
  unfold getQualifiedRouteComponent.
  destruct (qualifiedStore st !! ref value) as [cached|] eqn:Hget; simpl;
    [done|].
  intros Hc. rewrite lookup_insert_ne; [done|]. congruence.
Qed.

Lemma adapt_dom value st :
  dom (qualifiedStore (adapt value st).2)
  = {[ref value]} ∪ dom (qualifiedStore st).
Proof.
  unfold getQualifiedRouteComponent.
  destruct (qualifiedStore st !! ref value) as [cached|] eqn:Hget; simpl.
  - symmetry. apply subseteq_union_1_L, singleton_subseteq_l.
    by apply elem_of_dom_2 in Hget.
  - by rewrite dom_insert_L.
Qed.

(** The store is never emptied or overwritten: a call keeps every entry as
    it is, and the references with an entry afterwards are those from before
    and the reference of the adapted route. *)
Theorem adapt_keeps_store value st :
  let st' := (getQualifiedRouteComponent import_mode NODE_ENV value st).2 in
  (∀ k c, qualifiedStore st !! k = Some c → qualifiedStore st' !! k = Some c)
  ∧ dom (qualifiedStore st') = {[ref value]} ∪ dom (qualifiedStore st).
Proof. split; [apply adapt_kept | apply adapt_dom]. Qed.

Lemma adapt_coherent value st :
  store_coherent st → store_coherent (adapt value st).2.
Proof.
  intros Hco. unfold store_coherent, getQualifiedRouteComponent.
  destruct (qualifiedStore st !! ref value) eqn:Hget; simpl; [done|].
  intros k c. rewrite lookup_insert. case_decide.
  - intros [= <-]. by subst.
  - apply Hco.
Qed.

Lemma adaptAll_snoc calls value st :
  adaptAll' (calls ++ [value]) st = (adapt value (adaptAll' calls st)).2.
Proof. unfold adaptAll. by rewrite foldl_app. Qed.

(** After any run of calls from the empty store: the store is well formed;
    the references with an entry are those of the adapted routes; and every
    cached component wraps a node of the reference it is cached under and is
    named [Route(segment)] after it. *)
Theorem adapted_store_invariant calls :
  let st := adaptAll' calls emptyStore in
  store_wf st
  ∧ store_coherent st
  ∧ dom (qualifiedStore st) = list_to_set (ref <$> calls).
Proof.
  induction calls as [|value calls IH] using rev_ind; simpl.
  - split; [apply store_wf_empty|]. split; [|done].
    intros k c. unfold adaptAll. simpl. by rewrite lookup_empty.
  - destruct IH as (Hwf & Hco & Hdom). rewrite adaptAll_snoc.
    split; [by apply adapt_wf|]. split; [by apply adapt_coherent|].
    rewrite adapt_dom, Hdom, fmap_app, list_to_set_app_L. simpl.
    rewrite (right_id_L ∅ (∪)). apply (comm_L (∪)).
Qed.

End AdapterExtras.

(** ** The further properties on sample inputs *)

Lemma unordered_call_returns_callers_array_witness :
  warnings (getSortedChildren sortRoutesWithInitial_spec
              [routeA; routeB; routeC] (Some []) (Some "C")) = [].
Proof.
  apply (unordered_call_returns_callers_array sortRoutesWithInitial_spec
           [routeA; routeB; routeC] (Some []) (Some "C")).
  reflexivity.
Defined.

Lemma returning_call_accounts_witness :
  length (warnings (getSortedChildren sortRoutesWithInitial_spec
                      [routeA; routeB; routeC]
                      (Some [entryFor "B" JUndefined; entryFor "Z" JUndefined])
                      None)) + 3 = 2 + 2.
Proof.
  destruct (returning_call_accounts sortRoutesWithInitial_spec
              [routeA; routeB; routeC]
              (Some [entryFor "B" JUndefined; entryFor "Z" JUndefined]) None
              [Child.mk routeB (entryProps (entryFor "B" JUndefined));
               withEmptyProps routeA; withEmptyProps routeC] eq_refl)
    as [H _].
  exact H.
Defined.

Lemma matching_order_is_silent_witness :
  warnings (getSortedChildren sortRoutesWithInitial_spec
              [routeA; routeB; routeC]
              (Some [entryFor "C" JUndefined; entryFor "B" (JStr "/b")]) None)
  = [].
Proof.
  apply (matching_order_is_silent sortRoutesWithInitial_spec).
  - simpl. distinct_elements.
  - intros e He. simpl in He.
    apply elem_of_cons in He as [->|He];
      [exists routeC; split; [repeat constructor | reflexivity]|].
    apply list_elem_of_singleton in He as ->.
    exists routeB. split; [repeat constructor | reflexivity].
Defined.

Lemma entries_after_children_used_up_witness :
  completion (getSortedChildren sortRoutesWithInitial_spec [routeA]
                (Some ([entryFor "A" JUndefined]
                       ++ [entryFor "A" (JStr "/again")])) None)
  = completion (getSortedChildren sortRoutesWithInitial_spec [routeA]
                  (Some [entryFor "A" JUndefined]) None).
Proof.
  apply (entries_after_children_used_up sortRoutesWithInitial_spec [routeA]
           [entryFor "A" JUndefined] [entryFor "A" (JStr "/again")] None).
  - discriminate.
  - reflexivity.
Defined.

Lemma hook_without_children_witness :
  useSortedScreens sortRoutesWithInitial_spec "lazy" "production"
    (Some routeA) (Some [entryFor "A" (JStr "/somewhere")])
  = mkRendered (Return []) (Some []) [].
Proof.
  apply (hook_without_children sortRoutesWithInitial_spec "lazy" "production"
           (Some routeA)).
  right. reflexivity.
Defined.

Lemma hook_one_screen_per_child_witness :
  ∃ screens,
    rendered (useSortedScreens sortRoutesWithInitial_spec "lazy" "production"
                (Some layoutRoute) (Some [entryFor "B" JUndefined]))
    = Return screens
    ∧ screen_name <$> screens ≡ₚ ["A"; "B"; "C"]
    ∧ Forall (λ s, screen_key s = screen_name s) screens.
Proof.
  apply (hook_one_screen_per_child sortRoutesWithInitial_spec "lazy"
           "production" layoutRoute routeA [routeB; routeC]
           (Some [entryFor "B" JUndefined])).
  - reflexivity.
  - by repeat constructor.
Defined.

Lemma hook_screen_origin_witness :
  ∃ r, r ∈ [routeA; routeB; routeC]
       ∧ screen_name (routeToScreen "lazy" "production" routeB
                        (Some (entryProps (entryFor "B" JUndefined))))
         = route r.
Proof.
  destruct (hook_screen_origin sortRoutesWithInitial_spec "lazy" "production"
              layoutRoute routeA [routeB; routeC]
              (Some [entryFor "B" JUndefined])
              [routeToScreen "lazy" "production" routeB
                 (Some (entryProps (entryFor "B" JUndefined)));
               routeToScreen "lazy" "production" routeC (Some ∅);
               routeToScreen "lazy" "production" routeA (Some ∅)]
              (routeToScreen "lazy" "production" routeB
                 (Some (entryProps (entryFor "B" JUndefined))))
              eq_refl eq_refl (list_elem_of_here _ _))
    as (r & Hr & Hname & _).
  exists r. by split.
Defined.

Lemma inner_route_id_ignores_other_params_witness :
  createGetIdForRoute userRoute
    (withParams [("user", PStr "ada"); ("tab", PStr "posts")])
  = createGetIdForRoute userRoute (withParams [("user", PStr "ada")]).
Proof.
  apply inner_route_id_ignores_other_params.
  - discriminate.
  - intros key Hkey. simpl in Hkey.
    by apply list_elem_of_singleton in Hkey as ->.
Defined.

Lemma reserved_keys_do_not_reach_id_witness :
  createGetIdForRoute routeA (withParams [("q", PStr "abc")])
  = createGetIdForRoute routeA
      (withParams [("screen", PStr "A"); ("q", PStr "abc");
                   ("params", PStr "p")]).
Proof.
  apply (reserved_keys_do_not_reach_id routeA
           [("screen", PStr "A"); ("q", PStr "abc"); ("params", PStr "p")]);
    apply not_elem_of_nil.
Defined.

Lemma id_nonempty_witness :
  createGetIdForRoute postRoute (withParams []) ≠ "".
Proof.
  apply (id_nonempty postRoute (withParams [])). right. split.
  - discriminate.
  - intros d Hd. simpl in Hd. by apply list_elem_of_singleton in Hd as ->.
Defined.

Lemma residual_value_separates_ids_witness :
  createGetIdForRoute routeA
    (withParams ([("p", PStr "1")] ++ ("q", PStr "abc") :: [("r", PStr "2")]))
  ≠ createGetIdForRoute routeA
      (withParams ([("p", PStr "1")] ++ ("q", PStr "abd") :: [("r", PStr "2")])).
Proof.
  apply residual_value_separates_ids.
  - reflexivity.
  - apply not_elem_of_nil.
  - reflexivity.
  - simpl. distinct_elements.
  - discriminate.
Defined.

